(** * JTVAE dataset and collator (dgllife/data/jtvae.py)

    A shallow embedding of [JTVAEDataset] and [JTVAECollator].  The
    chemistry toolkit, the graph library, the tensor library and the
    junction-tree module are collaborators of the file: they appear here as
    the fields of a record of external operations, each of which may raise.
    Everything the file itself does (line parsing, cache bookkeeping, the
    loops of the collator and their counters) is written out. *)

From Stdlib Require Import ZArith Ascii String Lia Bool.
From stdpp Require Import base tactics option list numbers strings.

Local Open Scope Z_scope.

(** ** Python values *)

(** A text is a sequence of code points; the model keeps the code points
    below 256. *)
Definition pystr := list ascii.

Definition lit (s : string) : pystr := list_ascii_of_string s.

Inductive exn :=
  | IndexError
  | KeyError
  | ValueError
  | TypeError
  | LibError (tag : nat).

(** [str.isspace] on one code point below 256: TAB, LF, VT, FF, CR, the four
    separators FS GS RS US, the space, NEL and the no-break space. *)
Definition isspace (c : ascii) : bool :=
  let n := N_of_ascii c in
  ((9 <=? n)%N && (n <=? 13)%N)
  || ((28 <=? n)%N && (n <=? 31)%N)
  || (n =? 32)%N || (n =? 133)%N || (n =? 160)%N.

Definition char_in (chars : pystr) (c : ascii) : bool :=
  existsb (Ascii.eqb c) chars.

Fixpoint drop_while {A} (p : A -> bool) (l : list A) : list A :=
  match l with
  | [] => []
  | x :: l' => if p x then drop_while p l' else l
  end.

Fixpoint take_while {A} (p : A -> bool) (l : list A) : list A :=
  match l with
  | [] => []
  | x :: l' => if p x then x :: take_while p l' else []
  end.

(** [s.strip(chars)] *)
Definition py_lstrip (chars s : pystr) : pystr := drop_while (char_in chars) s.
Definition py_rstrip (chars s : pystr) : pystr :=
  rev (drop_while (char_in chars) (rev s)).
Definition py_strip (chars s : pystr) : pystr :=
  py_rstrip chars (py_lstrip chars s).

(** [s.split()]: maximal runs of non-space code points, in order.  [cur] is
    the run being read, most recent code point first. *)
Definition flush (cur : pystr) (rest : list pystr) : list pystr :=
  match cur with
  | [] => rest
  | _ => rev cur :: rest
  end.

Fixpoint split_from (cur : pystr) (s : pystr) : list pystr :=
  match s with
  | [] => flush cur []
  | c :: s' =>
      if isspace c then flush cur (split_from [] s')
      else split_from (c :: cur) s'
  end.

Definition py_split (s : pystr) : list pystr := split_from [] s.

(** Sequence indexing [l[i]] with Python's negative indices. *)
Definition py_index {A} (l : list A) (i : Z) : option nat :=
  let n := Z.of_nat (length l) in
  if (0 <=? i) && (i <? n) then Some (Z.to_nat i)
  else if (- n <=? i) && (i <? 0) then Some (Z.to_nat (n + i))
  else None.

Definition py_getitem {A} (l : list A) (i : Z) : exn + A :=
  match py_index l i with
  | Some k => match l !! k with Some x => inr x | None => inl IndexError end
  | None => inl IndexError
  end.

(** ** The error monad of straight-line code *)

Definition ebind {A B} (m : exn + A) (k : A -> exn + B) : exn + B :=
  match m with
  | inl e => inl e
  | inr a => k a
  end.

Notation "'try' x <- m ; k" := (ebind m (fun x => k))
  (at level 10, x name, m at level 100, k at level 200).

Fixpoint emap {A B} (f : A -> exn + B) (l : list A) : exn + list B :=
  match l with
  | [] => inr []
  | x :: l' =>
      try y <- f x;
      try ys <- emap f l';
      inr (y :: ys)
  end.

(** ** Reading the data file

    [for line in f] yields the lines of the file, each with its terminator;
    [read_line] is the body of the comprehension of [__init__]. *)
Definition strip_chars : pystr :=
  [ascii_of_nat 13; ascii_of_nat 10; ascii_of_nat 32].

Definition read_line (line : pystr) : exn + pystr :=
  py_getitem (py_split (py_strip strip_chars line)) 0.

Definition read_data (f : list pystr) : exn + list pystr := emap read_line f.

(** The first whitespace-separated token of a text, as the specification
    words it. *)
Definition first_token (s : pystr) : pystr :=
  take_while (fun c => negb (isspace c)) (drop_while isspace s).

(** A line that is empty or holds whitespace only. *)
Definition blank (s : pystr) : Prop := Forall (fun c => isspace c = true) s.

Global Instance blank_dec s : Decision (blank s).
Proof. unfold blank. apply _. Defined.

(** ** Molecules, tensors and junction trees

    The toolkit's molecule is seen through the accessors the collator calls. *)
Record Atom := { GetIdx : Z; GetAtomMapNum : Z }.
Record Bond := { GetBeginAtom : Atom; GetEndAtom : Atom }.
Record Mol := { GetBonds : list Bond; GetNumAtoms : Z }.

Inductive dtype := float32 | int32 | int64.

Record Tensor := { t_dtype : dtype; t_shape : list nat; t_data : list Z }.

(** [torch.zeros] of a shape; the only float tensors the file builds. *)
Definition torch_zeros (shape : list nat) : Tensor :=
  {| t_dtype := float32; t_shape := shape;
     t_data := repeat 0 (foldr Nat.mul 1%nat shape) |}.

Definition tensor_int (t : Tensor) : Tensor :=
  {| t_dtype := int32; t_shape := t_shape t; t_data := t_data t |}.

Definition tensor_long (t : Tensor) : Tensor :=
  {| t_dtype := int64; t_shape := t_shape t; t_data := t_data t |}.

(** [torch.IntTensor] of a list of pairs: one row per pair; of the empty
    list, a tensor of one dimension. *)
Definition torch_IntTensor (rows : list (Z * Z)) : Tensor :=
  match rows with
  | [] => {| t_dtype := int32; t_shape := [0%nat]; t_data := [] |}
  | _ => {| t_dtype := int32; t_shape := [length rows; 2%nat];
            t_data := concat (map (fun p => [p.1; p.2]) rows) |}
  end.

Definition torch_LongTensor (l : list Z) : Tensor :=
  {| t_dtype := int64; t_shape := [length l]; t_data := l |}.

(** The objects that reach [mol_to_bigraph] or sit in [stereo_cands]. *)
Inductive pyobj (G : Type) :=
  | PyNone
  | PyStr (s : pystr)
  | PyMol (m : Mol)
  | PyGraph (g : G).
Arguments PyNone {G}.
Arguments PyStr {G} s.
Arguments PyMol {G} m.
Arguments PyGraph {G} g.

(** One cluster of a junction tree: the keys of the node dictionary that the
    file reads or writes.  ['idx'] is absent until a collation sets it. *)
Record Node := {
  label : pystr;
  cands : list pystr;
  cand_mols : list Mol;
  label_mol : Mol;
  smiles : pystr;
  is_leaf : bool;
  idx : option Z
}.

(** A dictionary in insertion order. *)
Definition dict (V : Type) := list (Z * V).

Fixpoint dict_get {V} (d : dict V) (k : Z) : exn + V :=
  match d with
  | [] => inl KeyError
  | (k', v) :: d' => if Z.eqb k' k then inr v else dict_get d' k
  end.

Fixpoint dict_alter {V} (f : V -> V) (k : Z) (d : dict V) : dict V :=
  match d with
  | [] => []
  | (k', v) :: d' =>
      if Z.eqb k' k then (k', f v) :: d' else (k', v) :: dict_alter f k d'
  end.

Record MolTree (G : Type) := {
  nodes_dict : dict Node;
  graph : G;
  stereo_cands : list (pyobj G);
  smiles3D : pystr
}.
Arguments nodes_dict {G} _.
Arguments graph {G} _.
Arguments stereo_cands {G} _.
Arguments smiles3D {G} _.

(** The two featurizer pairs of [__init__]: encoding and decoding. *)
Inductive featurizers := enc | dec.

(** ** The collaborators *)
Record Ext := {
  Graph : Type;
  Vocab : Type;
  (** [MolTree(smiles)], [mol_tree.recover()], [mol_tree.assemble()] *)
  MolTree_new : pystr -> exn + MolTree Graph;
  recover : MolTree Graph -> exn + MolTree Graph;
  assemble : MolTree Graph -> exn + MolTree Graph;
  (** [vocab.get_index(smiles)] *)
  get_index : Vocab -> pystr -> exn + Z;
  (** [get_mol(smiles)] *)
  get_mol : pystr -> exn + option Mol;
  (** [mol_to_bigraph(x, node_featurizer, edge_featurizer,
      canonical_atom_order=False)] *)
  mol_to_bigraph : featurizers -> pyobj Graph -> exn + Graph;
  (** [g.apply_edges(fn.copy_u('x', 'src'))] followed by
      [g.edata['x'] = torch.cat([g.edata.pop('src'), g.edata['x']], dim=1)] *)
  copy_src : Graph -> exn + Graph;
  (** [g.ndata['wid'] = t] *)
  set_wid : Graph -> Tensor -> exn + Graph;
  (** [dgl.batch(graphs)] *)
  dgl_batch : list (option Graph) -> exn + Graph;
  (** [g.has_edges_between(u, v)] *)
  has_edges_between : Graph -> Z -> Z -> exn + bool
}.

(** ** Store and effects

    Junction trees are objects: a datapoint, the cache of the dataset and a
    batch hold references to them, and the collator writes into them. *)
Abbreviation ref := nat (only parsing).

Inductive outcome (A : Type) :=
  | Ret (a : A)
  | Raise (e : exn)
  | OutOfFuel
  | Dangling.
Arguments Ret {A} a.
Arguments Raise {A} e.
Arguments OutOfFuel {A}.
Arguments Dangling {A}.

Definition M (S A : Type) := S -> outcome A * S.

Definition ret {S A} (a : A) : M S A := fun s => (Ret a, s).

Definition bind {S A B} (m : M S A) (k : A -> M S B) : M S B :=
  fun s =>
    match m s with
    | (Ret a, s') => k a s'
    | (Raise e, s') => (Raise e, s')
    | (OutOfFuel, s') => (OutOfFuel, s')
    | (Dangling, s') => (Dangling, s')
    end.

Notation "'do' x <- m ; k" := (bind m (fun x => k))
  (at level 10, x name, m at level 100, k at level 200).

Definition returned {A} (o : outcome A) : bool :=
  match o with Ret _ => true | _ => false end.

Definition lift {S A} (r : exn + A) : M S A :=
  fun s => match r with inl e => (Raise e, s) | inr a => (Ret a, s) end.

Abbreviation heap G := (list (MolTree G)).

Section Heap.
Context {G : Type}.

Definition read (r : ref) : M (heap G) (MolTree G) :=
  fun h => match h !! r with
           | Some t => (Ret t, h)
           | None => (Dangling, h)
           end.

Definition write (r : ref) (t : MolTree G) : M (heap G) unit :=
  fun h => match h !! r with
           | Some _ => (Ret tt, <[r := t]> h)
           | None => (Dangling, h)
           end.

Definition alloc (t : MolTree G) : M (heap G) ref :=
  fun h => (Ret (length h), h ++ [t]).
End Heap.

Definition py_setitem {A} (l : list A) (i : Z) (x : A) : exn + list A :=
  match py_index l i with
  | Some k => inr (<[k := x]> l)
  | None => inl IndexError
  end.

(** [s in l] for a text [s] and a list of objects: only an equal text is
    equal to a text. *)
Definition is_str {G} (s : pystr) (o : pyobj G) : bool :=
  match o with
  | PyStr s' => bool_decide (s = s')
  | _ => false
  end.

Definition str_in {G} (s : pystr) (l : list (pyobj G)) : bool :=
  existsb (is_str s) l.

(** A node takes part in candidate scoring unless it is a leaf or has a
    single candidate (the [continue] of both candidate loops). *)
Definition skipped (nd : Node) : bool :=
  is_leaf nd || (Z.of_nat (length (cands nd)) =? 1).

(** [tree.stereo_cands.append(o)] and the replacement of the node
    dictionary of a tree. *)
Definition append_stereo {G} (o : pyobj G) (t : MolTree G) : MolTree G :=
  {| nodes_dict := nodes_dict t; graph := graph t;
     stereo_cands := stereo_cands t ++ [o]; smiles3D := smiles3D t |}.

Definition with_nodes {G} (t : MolTree G) (d : dict Node) : MolTree G :=
  {| nodes_dict := d; graph := graph t;
     stereo_cands := stereo_cands t; smiles3D := smiles3D t |}.

(** ** JTVAEDataset *)
Section Dataset.
Variable E : Ext.
Local Abbreviation G := (Graph E).

Record JTVAEDataset := {
  data : list pystr;
  vocab : Vocab E;
  cache : bool;
  trees : list (option ref);
  mol_graphs : list (option G);
  cand_graphs : list (option (list G));
  stereo_cand_graphs : list (option (list G));
  training : bool
}.

(** The four cache lists exist only when [cache] is set; they are read
    only behind [self.cache and ...]. *)
Definition JTVAEDataset_init (f : list pystr) (v : Vocab E)
    (cache training : bool) : exn + JTVAEDataset :=
  try d <- read_data f;
  let none {A} : list (option A) :=
    if cache then repeat None (length d) else [] in
  inr {| data := d; vocab := v; cache := cache;
         trees := none; mol_graphs := none;
         cand_graphs := none; stereo_cand_graphs := none;
         training := training |}.

Definition JTVAEDataset_len (self : JTVAEDataset) : Z :=
  Z.of_nat (length (data self)).

(** What [__getitem__] returns: a pair, or a 4-tuple in training mode.
    A component read back from a cache list may be [None]. *)
Inductive Datapoint :=
  | DP2 (mol_tree : ref) (mol_graph : option G)
  | DP4 (mol_tree : ref) (mol_graph : option G)
        (cand_graphs : option (list G))
        (stereo_cand_graphs : option (list G)).

Record World := { self : JTVAEDataset; store : heap G }.

Definition get_self : M World JTVAEDataset := fun w => (Ret (self w), w).

Definition set_self (d : JTVAEDataset) : M World unit :=
  fun w => (Ret tt, {| self := d; store := store w |}).

Definition on_store {A} (m : M (heap G) A) : M World A :=
  fun w => let (o, h) := m (store w) in (o, {| self := self w; store := h |}).

(** [mol_to_bigraph] and the two statements that follow it at each of its
    three call sites. *)
Definition bigraph (fz : featurizers) (x : pyobj G) : exn + G :=
  try g <- mol_to_bigraph E fz x;
  copy_src E g.

(** Lines 174-176: the label joins the candidates of its node. *)
Definition add_label (nd : Node) : Node :=
  if bool_decide (label nd ∈ cands nd) then nd
  else {| label := label nd;
          cands := cands nd ++ [label nd];
          cand_mols := cand_mols nd ++ [label_mol nd];
          label_mol := label_mol nd;
          smiles := smiles nd;
          is_leaf := is_leaf nd;
          idx := idx nd |}.

(** Lines 168-190.  The tree is local to the call until it is complete, so
    it enters the store when these lines are done. *)
Definition build (v : Vocab E) (smi : pystr) : exn + (MolTree G * G) :=
  try t0 <- MolTree_new E smi;
  try t1 <- recover E t0;
  try t2 <- assemble E t1;
  let nodes := map (fun kn => (kn.1, add_label kn.2)) (nodes_dict t2) in
  try wid <- emap (fun kn => try nd <- dict_get nodes kn.1;
                             get_index E v (smiles nd)) nodes;
  try g <- set_wid E (graph t2) (torch_LongTensor wid);
  try mol <- get_mol E smi;
  try mol_graph <- bigraph enc
    (match mol with Some m => PyMol m | None => PyNone end);
  inr ({| nodes_dict := nodes; graph := g;
          stereo_cands := stereo_cands t2; smiles3D := smiles3D t2 |},
       mol_graph).

(** [self.cache and self.trees[idx] is not None], with the tree it found. *)
Definition cached_tree (index : Z) : M World (option ref) :=
  do d <- get_self;
  if cache d then lift (py_getitem (trees d) index) else ret None.

(** Lines 203-215 ([print] left out). *)
Definition cand_loop (t : MolTree G) : exn + list G :=
  try per_node <- emap (fun kn =>
      if skipped kn.2 then inr []
      else emap (fun cand => bigraph dec (PyMol cand)) (cand_mols kn.2))
    (nodes_dict t);
  inr (concat per_node).

(** Lines 223-229: [for cand in stereo_cands], a list iterator at position
    [k] over the list of the tree, which the body appends to. *)
Fixpoint stereo_loop (r : ref) (k : nat) (fuel : nat) : M (heap G) unit :=
  match fuel with
  | O => fun h => (OutOfFuel, h)
  | S fuel' =>
      do t <- read r;
      match stereo_cands t !! k with
      | None => ret tt
      | Some cand =>
          do cg <- lift (bigraph enc cand);
          do _ <- write r (append_stereo (PyGraph cg) t);
          stereo_loop r (S k) fuel'
      end
  end.

(** Lines 217-229. *)
Definition stereo_part (r : ref) (fuel : nat) : M (heap G) (list G) :=
  let stereo_cand_graphs : list G := [] in
  do t <- read r;
  if Z.of_nat (length (stereo_cands t)) =? 1 then ret stereo_cand_graphs
  else
    do _ <- (if str_in (smiles3D t) (stereo_cands t) then ret tt
             else write r (append_stereo (PyStr (smiles3D t)) t));
    do _ <- stereo_loop r 0 fuel;
    ret stereo_cand_graphs.

Definition with_trees (d : JTVAEDataset) (ts : list (option ref))
    (gs : list (option G)) : JTVAEDataset :=
  {| data := data d; vocab := vocab d; cache := cache d;
     trees := ts; mol_graphs := gs;
     cand_graphs := cand_graphs d;
     stereo_cand_graphs := stereo_cand_graphs d;
     training := training d |}.

Definition with_cands (d : JTVAEDataset) (cgs sgs : list (option (list G)))
    : JTVAEDataset :=
  {| data := data d; vocab := vocab d; cache := cache d;
     trees := trees d; mol_graphs := mol_graphs d;
     cand_graphs := cgs;
     stereo_cand_graphs := sgs;
     training := training d |}.

(** Lines 164-194: the tree and the molecular graph of the datapoint. *)
Definition tree_and_graph (index : Z) : M World (ref * option G) :=
  do hit <- cached_tree index;
  do d <- get_self;
  match hit with
  | Some mol_tree =>
      do mol_graph <- lift (py_getitem (mol_graphs d) index);
      ret (mol_tree, mol_graph)
  | None =>
      do smi <- lift (py_getitem (data d) index);
      do tm <- lift (build (vocab d) smi);
      do mol_tree <- on_store (alloc tm.1);
      do _ <-
        (if cache d then
           do ts <- lift (py_setitem (trees d) index (Some mol_tree));
           do gs <- lift (py_setitem (mol_graphs d) index (Some tm.2));
           set_self (with_trees d ts gs)
         else ret tt);
      ret (mol_tree, Some tm.2)
  end.

(** Lines 199-233: the candidate graphs and the stereo candidate graphs. *)
Definition candidates (index : Z) (fuel : nat) (mol_tree : ref)
    : M World (option (list G) * option (list G)) :=
  do again <- cached_tree index;
  do d <- get_self;
  match again with
  | Some _ =>
      do cg <- lift (py_getitem (cand_graphs d) index);
      do sg <- lift (py_getitem (stereo_cand_graphs d) index);
      ret (cg, sg)
  | None =>
      do t <- on_store (read mol_tree);
      do cg <- lift (cand_loop t);
      do sg <- on_store (stereo_part mol_tree fuel);
      do _ <-
        (if cache d then
           do cgs <- lift (py_setitem (cand_graphs d) index (Some cg));
           do sgs <- lift (py_setitem (stereo_cand_graphs d) index (Some sg));
           set_self (with_cands d cgs sgs)
         else ret tt);
      ret (Some cg, Some sg)
  end.

Definition getitem (index : Z) (fuel : nat) : M World Datapoint :=
  do tg <- tree_and_graph index;
  do d <- get_self;
  if negb (training d) then ret (DP2 tg.1 tg.2)
  else
    do cs <- candidates index fuel tg.1;
    ret (DP4 tg.1 tg.2 cs.1 cs.2).
End Dataset.
Arguments data {E} _.
Arguments vocab {E} _.
Arguments cache {E} _.
Arguments trees {E} _.
Arguments mol_graphs {E} _.
Arguments cand_graphs {E} _.
Arguments stereo_cand_graphs {E} _.
Arguments training {E} _.
Arguments JTVAEDataset_len {E} _.
Arguments self {E} _.
Arguments store {E} _.
Arguments DP2 {E} _ _.
Arguments DP4 {E} _ _ _ _.

(** ** JTVAECollator *)

Definition enumerate {A} (l : list A) : list (Z * A) :=
  imap (fun k x => (Z.of_nat k, x)) l.

Fixpoint efold {A B} (f : B -> A -> exn + B) (l : list A) (acc : B)
    : exn + B :=
  match l with
  | [] => inr acc
  | x :: l' => try acc' <- f acc x; efold f l' acc'
  end.

Fixpoint fold_m {S A B} (f : B -> A -> M S B) (l : list A) (acc : B)
    : M S B :=
  match l with
  | [] => ret acc
  | x :: l' => do acc' <- f acc x; fold_m f l' acc'
  end.

(** [list(itertools.chain.from_iterable(l))]; [None] is not iterable. *)
Definition chain_from_iterable {A} (l : list (option (list A)))
    : exn + list A :=
  try ls <- emap (fun o => match o with
                           | Some x => inr x
                           | None => inl TypeError
                           end) l;
  inr (concat ls).

(** [l.index(s)] for a text [s]. *)
Fixpoint index_of {G} (s : pystr) (l : list (pyobj G)) : exn + Z :=
  match l with
  | [] => inl ValueError
  | o :: l' => if is_str s o then inr 0
               else try k <- index_of s l'; inr (k + 1)
  end.

Definition set_idx (v : Z) (nd : Node) : Node :=
  {| label := label nd; cands := cands nd; cand_mols := cand_mols nd;
     label_mol := label_mol nd; smiles := smiles nd; is_leaf := is_leaf nd;
     idx := Some v |}.

(** The local variables of the loop of lines 311-341.  The lists carry the
    names of the tensors they become; [var_i] is the variable [i], which
    both [enumerate] loops assign. *)
Record Acc := {
  var_i : Z;
  n_nodes : Z;
  l_cand_batch_idx : list Z;
  l_source_edges : list (Z * Z);
  l_target_edges : list (Z * Z)
}.

Section Collator.
Variable E : Ext.
Local Abbreviation G := (Graph E).

(** [zip( *data )] has as many components as the shortest tuple and none
    for an empty batch; the unpacking wants exactly four, or two. *)
Definition unpack4 (data : list (Datapoint E))
    : exn + list (ref * option G * option (list G) * option (list G)) :=
  match data with
  | [] => inl ValueError
  | _ => emap (fun dp => match dp with
                         | DP4 t g c s => inr (t, g, c, s)
                         | DP2 _ _ => inl ValueError
                         end) data
  end.

Definition is_DP4 (dp : Datapoint E) : bool :=
  match dp with DP4 _ _ _ _ => true | DP2 _ _ => false end.

Definition dp_tree (dp : Datapoint E) : ref :=
  match dp with DP4 t _ _ _ | DP2 t _ => t end.

Definition dp_mol_graph (dp : Datapoint E) : option G :=
  match dp with DP4 _ g _ _ | DP2 _ g => g end.

Definition unpack2 (data : list (Datapoint E))
    : exn + list (ref * option G) :=
  match data with
  | [] => inl ValueError
  | _ => if forallb is_DP4 data then inl ValueError
         else inr (map (fun dp => (dp_tree dp, dp_mol_graph dp)) data)
  end.

(** [[tree.graph for tree in batch_trees]] *)
Fixpoint tree_graphs (batch_trees : list ref) : M (heap G) (list (option G)) :=
  match batch_trees with
  | [] => ret []
  | r :: rs =>
      do t <- read r;
      do gs <- tree_graphs rs;
      ret (Some (graph t) :: gs)
  end.

(** Lines 307-309 for one key. *)
Definition number_node (r : ref) (tot : Z) (node_id : Z) : M (heap G) Z :=
  do t <- read r;
  do _ <- lift (dict_get (nodes_dict t) node_id);
  do _ <- write r (with_nodes t (dict_alter (set_idx tot) node_id
                                            (nodes_dict t)));
  ret (tot + 1).

(** Lines 305-309. *)
Definition number_nodes (batch_trees : list ref) : M (heap G) Z :=
  fold_m (fun tot r =>
            do t <- read r;
            fold_m (number_node r) (map fst (nodes_dict t)) tot)
         batch_trees 0.

(** [tree.nodes_dict[nid - 1]['idx'] if nid > 0 else -1] *)
Definition bid (t : MolTree G) (nid : Z) : exn + Z :=
  if 0 <? nid then
    try nd <- dict_get (nodes_dict t) (nid - 1);
    match idx nd with
    | Some v => inr v
    | None => inl KeyError
    end
  else inr (-1).

Definition push_edges (a : Acc) (s t : Z * Z) : Acc :=
  {| var_i := var_i a; n_nodes := n_nodes a;
     l_cand_batch_idx := l_cand_batch_idx a;
     l_source_edges := l_source_edges a ++ [s];
     l_target_edges := l_target_edges a ++ [t] |}.

(** Lines 322-337: one bond of one candidate molecule. *)
Definition bond_step (batch_tree_graphs : G) (t : MolTree G)
    (a : Acc) (ib : Z * Bond) : exn + Acc :=
  let a := {| var_i := ib.1; n_nodes := n_nodes a;
              l_cand_batch_idx := l_cand_batch_idx a;
              l_source_edges := l_source_edges a;
              l_target_edges := l_target_edges a |} in
  let a1 := GetBeginAtom ib.2 in
  let a2 := GetEndAtom ib.2 in
  let begin_idx := GetIdx a1 in
  let end_idx := GetIdx a2 in
  let x_nid := GetAtomMapNum a1 in
  let y_nid := GetAtomMapNum a2 in
  try x_bid <- bid t x_nid;
  try y_bid <- bid t y_nid;
  if (0 <=? x_bid) && (0 <=? y_bid) && negb (x_bid =? y_bid) then
    try fwd <- has_edges_between E batch_tree_graphs x_bid y_bid;
    if fwd then
      inr (push_edges a (x_bid, y_bid)
                      (begin_idx + n_nodes a, end_idx + n_nodes a))
    else
      try bwd <- has_edges_between E batch_tree_graphs y_bid x_bid;
      if bwd then
        inr (push_edges a (y_bid, x_bid)
                        (end_idx + n_nodes a, begin_idx + n_nodes a))
      else inr a
  else inr a.

(** Lines 321-339: one candidate molecule. *)
Definition mol_step (batch_tree_graphs : G) (t : MolTree G)
    (a : Acc) (mol : Mol) : exn + Acc :=
  try a <- efold (bond_step batch_tree_graphs t) (enumerate (GetBonds mol)) a;
  inr {| var_i := var_i a; n_nodes := n_nodes a + GetNumAtoms mol;
         l_cand_batch_idx := l_cand_batch_idx a;
         l_source_edges := l_source_edges a;
         l_target_edges := l_target_edges a |}.

(** Lines 317-341: one node of one tree. *)
Definition node_step (batch_tree_graphs : G) (t : MolTree G)
    (a : Acc) (kn : Z * Node) : exn + Acc :=
  let node := kn.2 in
  if skipped node then inr a
  else
    try a <- efold (mol_step batch_tree_graphs t) (cand_mols node) a;
    inr {| var_i := var_i a; n_nodes := n_nodes a;
           l_cand_batch_idx :=
             l_cand_batch_idx a ++ repeat (var_i a) (length (cands node));
           l_source_edges := l_source_edges a;
           l_target_edges := l_target_edges a |}.

(** Lines 316-341: one tree of the batch, at position [it.1]. *)
Definition tree_step (batch_tree_graphs : G) (a : Acc) (it : Z * ref)
    : M (heap G) Acc :=
  let a := {| var_i := it.1; n_nodes := n_nodes a;
              l_cand_batch_idx := l_cand_batch_idx a;
              l_source_edges := l_source_edges a;
              l_target_edges := l_target_edges a |} in
  do t <- read it.2;
  lift (efold (node_step batch_tree_graphs t) (nodes_dict t) a).

(** [var_i] is unbound before the loop; its first use follows an
    assignment by the outer [enumerate]. *)
Definition acc0 : Acc :=
  {| var_i := 0; n_nodes := 0; l_cand_batch_idx := [];
     l_source_edges := []; l_target_edges := [] |}.

(** Lines 311-341. *)
Definition tree_messages (batch_tree_graphs : G) (batch_trees : list ref)
    : M (heap G) Acc :=
  fold_m (tree_step batch_tree_graphs) (enumerate batch_trees) acc0.

(** Lines 348-358 and 371-374: lists to tensors. *)
Definition source_tensor (src : list (Z * Z)) : Tensor :=
  if Z.of_nat (length src) =? 0 then tensor_int (torch_zeros [0; 2]%nat)
  else torch_IntTensor src.

(** The test of line 348 looks at the source list only. *)
Definition target_tensor (src tgt : list (Z * Z)) : Tensor :=
  if Z.of_nat (length src) =? 0 then tensor_int (torch_zeros [0; 2]%nat)
  else torch_IntTensor tgt.

Definition index_tensor (l : list Z) : Tensor :=
  if Z.of_nat (length l) =? 0 then tensor_long (torch_zeros [0%nat])
  else torch_LongTensor l.

(** Lines 362-369: one tree of the batch, at position [it.1]. *)
Definition stereo_step (st : list Z * list (Z * Z)) (it : Z * ref)
    : M (heap G) (list Z * list (Z * Z)) :=
  do t <- read it.2;
  if Z.of_nat (length (stereo_cands t)) =? 1 then ret st
  else
    do _ <- (if str_in (smiles3D t) (stereo_cands t) then ret tt
             else write it.2 (append_stereo (PyStr (smiles3D t)) t));
    do t <- read it.2;
    let cands := stereo_cands t in
    do pos <- lift (index_of (smiles3D t) cands);
    ret (st.1 ++ repeat it.1 (length cands),
         st.2 ++ [(pos, Z.of_nat (length cands))]).

(** What the collator returns in training mode, in the order of the
    [return] statement. *)
Record TrainBatch := {
  batch_trees : list ref;
  batch_tree_graphs : G;
  batch_mol_graphs : G;
  cand_batch_idx : Tensor;
  batch_cand_graphs : G;
  tree_mess_source_edges : Tensor;
  tree_mess_target_edges : Tensor;
  stereo_cand_batch_idx : Tensor;
  stereo_cand_labels : list (Z * Z);
  batch_stereo_cand_graphs : G
}.

Inductive Batch :=
  | Eval (batch_trees : list ref) (batch_tree_graphs batch_mol_graphs : G)
  | Train (b : TrainBatch).

Definition collate_eval (data : list (Datapoint E)) : M (heap G) Batch :=
  do cols <- lift (unpack2 data);
  let trees := map fst cols in
  do gs <- tree_graphs trees;
  do btg <- lift (dgl_batch E gs);
  do bmg <- lift (dgl_batch E (map snd cols));
  ret (Eval trees btg bmg).

Definition collate_train (data : list (Datapoint E)) : M (heap G) Batch :=
  do cols <- lift (unpack4 data);
  let trees := map (fun c => c.1.1.1) cols in
  do gs <- tree_graphs trees;
  do btg <- lift (dgl_batch E gs);
  do bmg <- lift (dgl_batch E (map (fun c => c.1.1.2) cols));
  do _ <- number_nodes trees;
  do a <- tree_messages btg trees;
  do cgs <- lift (chain_from_iterable (map (fun c => c.1.2) cols));
  do bcg <- lift (dgl_batch E (map Some cgs));
  do sgs <- lift (chain_from_iterable (map (fun c => c.2) cols));
  do bsg <- lift (dgl_batch E (map Some sgs));
  let src := source_tensor (l_source_edges a) in
  let tgt := target_tensor (l_source_edges a) (l_target_edges a) in
  let cbi := index_tensor (l_cand_batch_idx a) in
  do st <- fold_m stereo_step (enumerate trees) ([], []);
  ret (Train {| batch_trees := trees;
                batch_tree_graphs := btg;
                batch_mol_graphs := bmg;
                cand_batch_idx := cbi;
                batch_cand_graphs := bcg;
                tree_mess_source_edges := src;
                tree_mess_target_edges := tgt;
                stereo_cand_batch_idx := index_tensor st.1;
                stereo_cand_labels := st.2;
                batch_stereo_cand_graphs := bsg |}).

Definition JTVAECollator_call (training : bool) (data : list (Datapoint E))
    : M (heap G) Batch :=
  if training then collate_train data else collate_eval data.
End Collator.
Arguments batch_trees {E} _.
Arguments batch_tree_graphs {E} _.
Arguments batch_mol_graphs {E} _.
Arguments cand_batch_idx {E} _.
Arguments batch_cand_graphs {E} _.
Arguments tree_mess_source_edges {E} _.
Arguments tree_mess_target_edges {E} _.
Arguments stereo_cand_batch_idx {E} _.
Arguments stereo_cand_labels {E} _.
Arguments batch_stereo_cand_graphs {E} _.
Arguments Eval {E} _ _ _.
Arguments Train {E} _.

(** ** A small instance of the collaborators

    Graphs are counted by their atoms; the parser knows three molecules and
    rejects every other text. *)
Definition toy_atom (i m : Z) : Atom := {| GetIdx := i; GetAtomMapNum := m |}.

Definition toy_bond (i1 m1 i2 m2 : Z) : Bond :=
  {| GetBeginAtom := toy_atom i1 m1; GetEndAtom := toy_atom i2 m2 |}.

Definition toy_mol_a : Mol :=
  {| GetBonds := [toy_bond 0 1 1 2]; GetNumAtoms := 2 |}.

Definition toy_mol_b : Mol :=
  {| GetBonds := [toy_bond 0 2 1 1; toy_bond 1 1 2 0; toy_bond 2 1 0 1];
     GetNumAtoms := 3 |}.

Definition toy_mol_c : Mol := {| GetBonds := []; GetNumAtoms := 1 |}.

Definition toy_node (l : string) (cs : list string) (ms : list Mol)
    (leaf : bool) : Node :=
  {| label := lit l; cands := map lit cs; cand_mols := ms;
     label_mol := toy_mol_c; smiles := lit l; is_leaf := leaf;
     idx := None |}.

Definition toy_tree (stereo : list string) (s3d : string) : MolTree nat :=
  {| nodes_dict := [(0, toy_node "CC" ["CC"; "C=C"] [toy_mol_a; toy_mol_b] false);
                    (1, toy_node "O" ["O"] [toy_mol_c] true)];
     graph := 2%nat;
     stereo_cands := map (fun s => PyStr (lit s)) stereo;
     smiles3D := lit s3d |}.

Definition toy_parse (smi : pystr) : exn + MolTree nat :=
  if bool_decide (smi = lit "CCO") then inr (toy_tree ["CCO"] "CCO")
  else if bool_decide (smi = lit "C[C@H](N)O") then
    inr (toy_tree ["C[C@H](N)O"; "C[C@@H](N)O"] "C[C@H](N)O")
  else if bool_decide (smi = lit "CC=CC") then
    inr (toy_tree ["C/C=C/C"; "C/C=C\C"] "CC=CC")
  else inl (LibError 1).

Definition toy_bigraph (fz : featurizers) (x : pyobj nat) : exn + nat :=
  match x with
  | PyNone => inl TypeError
  | PyStr s => inr (length s)
  | PyMol m => inr (Z.to_nat (GetNumAtoms m))
  | PyGraph g => inr g
  end.

Definition toy_batch (gs : list (option nat)) : exn + nat :=
  inr (foldr (fun g n => (default 0 g + n)%nat) 0%nat gs).

Definition toy : Ext :=
  {| Graph := nat;
     Vocab := unit;
     MolTree_new := toy_parse;
     recover := inr;
     assemble := inr;
     get_index := fun _ s => inr (Z.of_nat (length s));
     get_mol := fun _ => inr (Some toy_mol_c);
     mol_to_bigraph := toy_bigraph;
     copy_src := inr;
     set_wid := fun g _ => inr g;
     dgl_batch := toy_batch;
     has_edges_between := fun _ u v => inr (u <? v) |}.

Definition toy_file : list pystr :=
  map lit ["CCO" +:+ String (ascii_of_nat 10) EmptyString;
           "  C[C@H](N)O 12.5" +:+ String (ascii_of_nat 10) EmptyString;
           "CC=CC" +:+ String (ascii_of_nat 13) (String (ascii_of_nat 10) EmptyString);
           "C(" +:+ String (ascii_of_nat 10) EmptyString].

(** The dataset built from [toy_file], and the world right after. *)
Definition toy_dataset (cache training : bool) : JTVAEDataset toy :=
  let none {A} : list (option A) := if cache then repeat None 4 else [] in
  {| data := map lit ["CCO"; "C[C@H](N)O"; "CC=CC"; "C("];
     vocab := tt : Vocab toy; cache := cache;
     trees := none; mol_graphs := none;
     cand_graphs := none; stereo_cand_graphs := none;
     training := training |}.

Definition toy_world (cache training : bool) : World toy :=
  {| self := toy_dataset cache training; store := [] |}.

(** ** Reading the result of a collation *)

(** The number of rows of a tensor: its first dimension. *)
Definition rows (t : Tensor) : nat := hd 0%nat (t_shape t).

(** The lists that the two collecting loops of a training-mode call build
    from [data] in the store [h]: [a] by lines 311-341, [st] by lines
    360-369. *)
Definition collected (E : Ext) (data : list (Datapoint E))
    (h : heap (Graph E)) (a : Acc) (st : list Z * list (Z * Z)) : Prop :=
  exists cols gs btg,
    unpack4 E data = inr cols
    /\ (tree_graphs E (map (fun c => c.1.1.1) cols) h).1 = Ret gs
    /\ dgl_batch E gs = inr btg
    /\ (tree_messages E btg (map (fun c => c.1.1.1) cols)
          (number_nodes E (map (fun c => c.1.1.1) cols) h).2).1 = Ret a
    /\ (fold_m (stereo_step E) (enumerate (map (fun c => c.1.1.1) cols))
          ([], []) (number_nodes E (map (fun c => c.1.1.1) cols) h).2).1
       = Ret st.

(** Computations that leave the store as it is. *)
Definition reads_only {S A} (m : M S A) : Prop := forall s, (m s).2 = s.

(** The two lists of tree messages grow together. *)
Definition lockstep (a : Acc) : Prop :=
  length (l_source_edges a) = length (l_target_edges a).

(** Two trees in a store and the batch of their datapoints; a tree whose
    clusters are all leaves. *)
Definition toy_heap : heap nat :=
  [toy_tree ["CCO"] "CCO"; toy_tree ["C/C=C/C"; "C/C=C\C"] "CC=CC"].

Definition toy_data : list (Datapoint toy) :=
  [DP4 (E:=toy) 0%nat (Some 1%nat) (Some [2; 3]%nat) (Some []);
   DP4 (E:=toy) 1%nat (Some 1%nat) (Some [2; 3]%nat) (Some [])].

Definition toy_leaf_tree : MolTree nat :=
  {| nodes_dict := [(0, toy_node "C" ["C"] [toy_mol_c] true)];
     graph := 1%nat;
     stereo_cands := [PyStr (lit "C")];
     smiles3D := lit "C" |}.

(** ** The trees after a collation *)

(** A node dictionary numbered from [tot] on, in its order. *)
Definition renumber (tot : Z) (d : dict Node) : dict Node :=
  imap (fun j kn => (kn.1, set_idx (tot + Z.of_nat j) kn.2)) d.

(** What lines 364-367 leave of a tree. *)
Definition add_smiles3D {G} (t : MolTree G) : MolTree G :=
  if Z.of_nat (length (stereo_cands t)) =? 1 then t
  else if str_in (smiles3D t) (stereo_cands t) then t
  else append_stereo (PyStr (smiles3D t)) t.

Definition tree_size {G} (h : heap G) (r : ref) : nat :=
  match h !! r with
  | Some t => length (nodes_dict t)
  | None => 0
  end.

(** The value of [tot] when the loop of lines 305-309 reaches the tree at
    position [k] of the batch. *)
Definition tot_at {G} (h : heap G) (batch : list ref) (k : nat) : Z :=
  Z.of_nat (sum_list (map (tree_size h) (take k batch))).

(** A dictionary has each key once. *)
Definition keys_unique {G} (t : MolTree G) : Prop :=
  NoDup (map fst (nodes_dict t)).

Global Instance keys_unique_dec {G} (t : MolTree G) : Decision (keys_unique t).
Proof. unfold keys_unique. apply _. Defined.

(** ** Invariants

    What holds of a dataset with a cache: the four cache lists are as long
    as the data, a cached tree was built from the text at its position, and
    the two lists of candidate graphs hold [None] only. *)
Definition cache_sound {E} (d : JTVAEDataset E) : Prop :=
  cache d = true ->
  length (trees d) = length (data d)
  /\ length (mol_graphs d) = length (data d)
  /\ cand_graphs d = repeat None (length (data d))
  /\ stereo_cand_graphs d = repeat None (length (data d))
  /\ forall (k : nat) r,
       trees d !! k = Some (Some r) ->
       exists smi tm,
         data d !! k = Some smi /\ build E (vocab d) smi = inr tm.

(** The worlds a program reaches: it builds a dataset, reads datapoints, and
    lets other code (the collator among it) write to the store. *)
Inductive reachable {E} : World E -> Prop :=
  | reach_init f v c tr d h :
      JTVAEDataset_init E f v c tr = inr d ->
      reachable {| self := d; store := h |}
  | reach_getitem w index fuel :
      reachable w -> reachable (getitem E index fuel w).2
  | reach_store w h :
      reachable w -> reachable {| self := self w; store := h |}.

(** ** Further vocabulary for the properties *)

(** A stored datapoint: a text that is not empty and holds no whitespace. *)
Definition clean (s : pystr) : Prop :=
  s <> [] /\ Forall (fun c => isspace c = false) s.

(** The candidates of a node and their molecules go in pairs. *)
Definition aligned (nd : Node) : Prop :=
  length (cands nd) = length (cand_mols nd).

(** The number of candidate graphs that lines 203-215 build for a tree, and
    the number of entries that line 341 adds for it. *)
Definition cand_count {G} (t : MolTree G) : nat :=
  sum_list (map (fun kn => if skipped kn.2 then 0%nat
                           else length (cand_mols kn.2)) (nodes_dict t)).

Definition cand_entries {G} (t : MolTree G) : nat :=
  sum_list (map (fun kn => if skipped kn.2 then 0%nat
                           else length (cands kn.2)) (nodes_dict t)).

Definition cand_entries_at {G} (h : heap G) (r : ref) : nat :=
  match h !! r with
  | Some t => cand_entries t
  | None => 0%nat
  end.

(** The numbers ['idx'] of the nodes of the tree at [r], in order. *)
Definition tree_idxs {G} (h : heap G) (r : ref) : list (option Z) :=
  match h !! r with
  | Some t => map (fun kn => idx kn.2) (nodes_dict t)
  | None => []
  end.

(** A source pair that the loop of lines 329-337 may collect: two numbered
    nodes, different, joined in the batched tree graph. *)
Definition tree_edge (E : Ext) (g : Graph E) (p : Z * Z) : Prop :=
  0 <= p.1 /\ 0 <= p.2 /\ p.1 <> p.2
  /\ has_edges_between E g p.1 p.2 = inr true.

(** ** Two more instances of the collaborators

    [strict] batches as DGL does: [dgl.batch] refuses an empty list of
    graphs.  In [lenient] the tree builder takes every text and the parser
    answers [None] on a text it cannot read, as [get_mol] does; the
    featurizer of [toy] raises on [None]. *)
Definition strict_batch (gs : list (option nat)) : exn + nat :=
  match gs with
  | [] => inl (LibError 7)
  | _ => toy_batch gs
  end.

Definition strict : Ext :=
  {| Graph := nat;
     Vocab := unit;
     MolTree_new := toy_parse;
     recover := inr;
     assemble := inr;
     get_index := fun _ s => inr (Z.of_nat (length s));
     get_mol := fun _ => inr (Some toy_mol_c);
     mol_to_bigraph := toy_bigraph;
     copy_src := inr;
     set_wid := fun g _ => inr g;
     dgl_batch := strict_batch;
     has_edges_between := fun _ u v => inr (u <? v) |}.

Definition lenient_parse (smi : pystr) : exn + MolTree nat :=
  if bool_decide (smi = lit "C(") then inr (toy_tree ["C("] "C(")
  else toy_parse smi.

Definition lenient_mol (smi : pystr) : exn + option Mol :=
  if bool_decide (smi = lit "C(") then inr None else inr (Some toy_mol_c).

Definition lenient : Ext :=
  {| Graph := nat;
     Vocab := unit;
     MolTree_new := lenient_parse;
     recover := inr;
     assemble := inr;
     get_index := fun _ s => inr (Z.of_nat (length s));
     get_mol := lenient_mol;
     mol_to_bigraph := toy_bigraph;
     copy_src := inr;
     set_wid := fun g _ => inr g;
     dgl_batch := toy_batch;
     has_edges_between := fun _ u v => inr (u <? v) |}.

(** The dataset that [lenient] builds from [toy_file], and the world right
    after. *)
Definition lenient_dataset (cache training : bool) : JTVAEDataset lenient :=
  let none {A} : list (option A) := if cache then repeat None 4 else [] in
  {| data := map lit ["CCO"; "C[C@H](N)O"; "CC=CC"; "C("];
     vocab := tt : Vocab lenient; cache := cache;
     trees := none; mol_graphs := none;
     cand_graphs := none; stereo_cand_graphs := none;
     training := training |}.

Definition lenient_world (cache training : bool) : World lenient :=
  {| self := lenient_dataset cache training; store := [] |}.

(** The batch of one datapoint whose tree is [toy_leaf_tree]: no candidate
    graph and no stereo candidate graph. *)
Definition strict_data : list (Datapoint strict) :=
  [DP4 (E:=strict) 0%nat (Some 1%nat) (Some []) (Some [])].

(** The candidate graphs and the stereo candidate graphs of a datapoint,
    the third and fourth components that lines 292-293 unpack. *)
Definition dp_cand_graphs {E} (dp : Datapoint E)
    : option (list (Graph E)) :=
  match dp with DP4 _ _ c _ => c | DP2 _ _ => None end.

Definition dp_stereo_graphs {E} (dp : Datapoint E)
    : option (list (Graph E)) :=
  match dp with DP4 _ _ _ s => s | DP2 _ _ => None end.

(** * Properties *)

(** ** Texts *)

Lemma take_drop_while {A} (p : A -> bool) (l : list A) :
  l = take_while p l ++ drop_while p l.
Proof.
  induction l as [|x l IH]; simpl; [done|].
  destruct (p x) eqn:Hp; simpl; [by rewrite <- IH | done].
Qed.

Lemma take_while_Forall {A} (p : A -> bool) (l : list A) :
  Forall (fun x => p x = true) (take_while p l).
Proof.
  induction l as [|x l IH]; simpl; [constructor|].
  destruct (p x) eqn:Hp; by constructor.
Qed.

Lemma strip_chars_space c : char_in strip_chars c = true -> isspace c = true.
Proof.
  unfold char_in, strip_chars. simpl.
  rewrite !orb_true_iff, !Ascii.eqb_eq.
  intros [->|[->|[->|?]]]; done.
Qed.

(** Stripping takes away a prefix and a suffix made of the given code
    points. *)
Lemma py_strip_split chars s :
  exists a b, s = a ++ py_strip chars s ++ b
              /\ Forall (fun c => char_in chars c = true) a
              /\ Forall (fun c => char_in chars c = true) b.
Proof.
  unfold py_strip, py_rstrip, py_lstrip.
  set (p := char_in chars). set (u := drop_while p s).
  exists (take_while p s), (rev (take_while p (rev u))).
  split; [|split].
  - rewrite <- rev_app_distr, <- take_drop_while, rev_involutive.
    apply take_drop_while.
  - apply take_while_Forall.
  - apply Forall_rev, take_while_Forall.
Qed.

Lemma blank_strip s : blank (py_strip strip_chars s) <-> blank s.
Proof.
  destruct (py_strip_split strip_chars s) as (a & b & Hs & Ha & Hb).
  unfold blank. split; intros H.
  - rewrite Hs. rewrite !Forall_app. repeat split; [|done|].
    + eapply Forall_impl; [exact Ha|]. apply strip_chars_space.
    + eapply Forall_impl; [exact Hb|]. apply strip_chars_space.
  - rewrite Hs in H. rewrite !Forall_app in H. tauto.
Qed.

Lemma split_from_run cur s :
  split_from cur s =
  flush (rev (take_while (fun c => negb (isspace c)) s) ++ cur)
        (split_from [] (drop_while (fun c => negb (isspace c)) s)).
Proof.
  revert cur. induction s as [|c s IH]; intros cur; simpl.
  - by destruct cur.
  - destruct (isspace c) eqn:Hc; simpl.
    + rewrite Hc. done.
    + rewrite IH. simpl. by rewrite <- app_assoc.
Qed.

Lemma split_from_skip s :
  split_from [] s = split_from [] (drop_while isspace s).
Proof.
  induction s as [|c s IH]; simpl; [done|].
  destruct (isspace c) eqn:Hc; simpl; [done|]. by rewrite Hc.
Qed.

Lemma first_token_nil s : first_token s = [] <-> blank s.
Proof.
  unfold first_token, blank. induction s as [|c s IH]; simpl.
  - split; [constructor|done].
  - destruct (isspace c) eqn:Hc.
    + rewrite IH. split; [by constructor|by inversion 1].
    + simpl. rewrite Hc. simpl. split; [done|].
      inversion 1; congruence.
Qed.

(** [split] yields no token on a blank text, and the first token first
    otherwise. *)
Lemma py_split_blank s : blank s -> py_split s = [].
Proof.
  unfold py_split, blank. induction 1 as [|c s Hc _ IH]; simpl; [done|].
  by rewrite Hc.
Qed.

Lemma py_split_first s :
  ~ blank s -> exists rest, py_split s = first_token s :: rest.
Proof.
  intros Hs. unfold py_split. rewrite split_from_skip, split_from_run.
  fold (first_token s). rewrite app_nil_r.
  destruct (first_token s) as [|c w] eqn:Hw.
  - by apply first_token_nil in Hw.
  - unfold flush. destruct (rev (c :: w)) eqn:Hr.
    + apply (f_equal (@length _)) in Hr. rewrite length_rev in Hr. done.
    + rewrite <- Hr, rev_involutive. eauto.
Qed.

Lemma read_line_blank line : blank line -> read_line line = inl IndexError.
Proof.
  intros H. unfold read_line. rewrite py_split_blank; [done|].
  by apply blank_strip.
Qed.

Lemma read_line_token line :
  ~ blank line ->
  read_line line = inr (first_token (py_strip strip_chars line)).
Proof.
  intros H. unfold read_line.
  destruct (py_split_first (py_strip strip_chars line)) as [rest ->]; [|done].
  by rewrite blank_strip.
Qed.

Lemma read_data_ok f :
  Forall (fun line => ~ blank line) f ->
  read_data f = inr (map (fun line => first_token (py_strip strip_chars line)) f).
Proof.
  unfold read_data. induction 1 as [|line f Hl _ IH]; simpl; [done|].
  rewrite read_line_token, IH; done.
Qed.

Lemma read_data_blank f :
  Exists blank f -> read_data f = inl IndexError.
Proof.
  unfold read_data. induction f as [|line f IH]; intros H; [by inversion H|].
  simpl. destruct (decide (blank line)) as [Hb|Hb].
  - by rewrite read_line_blank.
  - rewrite read_line_token by done. simpl.
    rewrite IH; [done|]. by inversion H.
Qed.

(** ** Construction of the dataset *)

(** C6: on a file with one SMILES string per line (no line is blank), the
    constructor succeeds, [__len__] is the number of lines of the file, and
    the datapoint stored at position [i] is the first whitespace-separated
    token of line [i] stripped of carriage returns, newlines and spaces at
    both ends. *)
Theorem init_one_smiles_per_line (E : Ext) (f : list pystr) (v : Vocab E)
    (c tr : bool) :
  Forall (fun line => ~ blank line) f ->
  exists ds,
    JTVAEDataset_init E f v c tr = inr ds
    /\ JTVAEDataset_len ds = Z.of_nat (length f)
    /\ forall (i : nat) line,
         f !! i = Some line ->
         data ds !! i = Some (first_token (py_strip strip_chars line)).
Proof.
  intros Hf. unfold JTVAEDataset_init. rewrite (read_data_ok f Hf). simpl.
  eexists. split; [reflexivity|]. split.
  - unfold JTVAEDataset_len. simpl. by rewrite length_map.
  - intros i line Hi. simpl. by rewrite list_lookup_fmap, Hi.
Qed.

Lemma init_one_smiles_per_line_witness :
  exists ds,
    JTVAEDataset_init toy toy_file tt true true = inr ds
    /\ JTVAEDataset_len ds = Z.of_nat (length toy_file)
    /\ forall (i : nat) line,
         toy_file !! i = Some line ->
         data ds !! i = Some (first_token (py_strip strip_chars line)).
Proof.
  apply (init_one_smiles_per_line toy toy_file tt true true).
  apply (bool_decide_unpack _). vm_compute. exact I.
Defined.

(** C10: a line that is empty or holds whitespace only makes the
    constructor fail with [IndexError]. *)
Theorem init_blank_line_IndexError (E : Ext) (f : list pystr) (v : Vocab E)
    (c tr : bool) :
  Exists blank f ->
  JTVAEDataset_init E f v c tr = inl IndexError.
Proof.
  intros Hf. unfold JTVAEDataset_init. by rewrite (read_data_blank f Hf).
Qed.

Lemma init_blank_line_IndexError_witness :
  JTVAEDataset_init toy
    [lit "CCO"; [ascii_of_nat 9; ascii_of_nat 32; ascii_of_nat 10]; lit "CC"]
    tt false true = inl IndexError.
Proof.
  apply (init_blank_line_IndexError toy).
  apply (bool_decide_unpack _). vm_compute. exact I.
Defined.

(** ** Indexing *)

Lemma py_index_length {A B} (l : list A) (l' : list B) i :
  length l = length l' -> py_index l i = py_index l' i.
Proof. unfold py_index. by intros ->. Qed.

Lemma py_index_lt {A} (l : list A) i k :
  py_index l i = Some k -> (k < length l)%nat.
Proof.
  unfold py_index. intros H.
  repeat case_match; simplify_eq;
    rewrite andb_true_iff, ?Z.leb_le, ?Z.ltb_lt in *; lia.
Qed.

Lemma py_getitem_inr {A} (l : list A) i x :
  py_getitem l i = inr x <->
  exists k, py_index l i = Some k /\ l !! k = Some x.
Proof.
  unfold py_getitem. split.
  - intros H. repeat case_match; simplify_eq. eauto.
  - intros (k & -> & ->). done.
Qed.

Lemma py_getitem_length {A B} (l : list A) (l' : list B) i x :
  length l = length l' ->
  py_getitem l i = inr x -> exists y, py_getitem l' i = inr y.
Proof.
  intros Hl (k & Hk & Hx)%py_getitem_inr.
  destruct (lookup_lt_is_Some_2 l' k) as [y Hy].
  { rewrite <- Hl. by eapply py_index_lt. }
  exists y. apply py_getitem_inr. exists k.
  by rewrite <- (py_index_length l l').
Qed.

Lemma py_getitem_repeat {A} (x y : A) n i :
  py_getitem (repeat x n) i = inr y -> y = x.
Proof.
  intros (k & _ & Hk)%py_getitem_inr.
  apply list_elem_of_lookup_2, list_elem_of_In, repeat_spec in Hk. done.
Qed.

Lemma py_setitem_ok {A} (l : list A) i x k :
  py_index l i = Some k -> py_setitem l i x = inr (<[k := x]> l).
Proof. unfold py_setitem. by intros ->. Qed.

(** ** Effects *)

Lemma bind_Ret_inv {S A B} (m : M S A) (k : A -> M S B) s b s' :
  bind m k s = (Ret b, s') ->
  exists a s1, m s = (Ret a, s1) /\ k a s1 = (Ret b, s').
Proof.
  unfold bind. destruct (m s) as [[a|e| |] s1]; [eauto|done..].
Qed.

Lemma bind_not_returned {S A B} (m : M S A) (k : A -> M S B) s :
  returned (m s).1 = false -> returned (bind m k s).1 = false.
Proof. unfold bind. by destruct (m s) as [[a|e| |] s1]. Qed.

Lemma lift_Ret_inv {S A} (r : exn + A) (s : S) a s' :
  lift r s = (Ret a, s') -> r = inr a /\ s' = s.
Proof. unfold lift. destruct r; by intros [= -> ->]. Qed.

Lemma cached_tree_eq E index (w : World E) :
  cached_tree E index w =
  (match (if cache (self w) then py_getitem (trees (self w)) index
          else inr None) with
   | inl e => Raise e
   | inr hit => Ret hit
   end, w).
Proof.
  unfold cached_tree, bind, get_self, lift, ret.
  destruct (cache (self w)); [|done].
  by destruct (py_getitem _ _).
Qed.

(** ** Reading a datapoint *)

Lemma tree_and_graph_spec E index (w : World E) o w' :
  cache_sound (self w) ->
  tree_and_graph E index w = (o, w') ->
  cache_sound (self w')
  /\ cache (self w') = cache (self w)
  /\ training (self w') = training (self w)
  /\ (forall r g, o = Ret (r, g) -> cache (self w) = true ->
        py_getitem (trees (self w')) index = inr (Some r)).
Proof.
  intros Hs. unfold tree_and_graph. unfold bind at 1. rewrite cached_tree_eq.
  destruct (cache (self w)) eqn:Hc.
  - destruct (py_getitem (trees (self w)) index) as [e|hit] eqn:Hhit.
    { intros [= <- <-]. done. }
    unfold bind at 1, get_self. destruct hit as [r|].
    + unfold bind, lift, ret.
      destruct (py_getitem (mol_graphs (self w)) index); simpl;
        intros [= <- <-]; split_and!; try done.
      intros ? ? [= <- <-] _. done.
    + unfold bind at 1, lift.
      destruct (py_getitem (data (self w)) index) as [e|smi] eqn:Hsmi.
      { intros [= <- <-]. done. }
      unfold bind at 1.
      destruct (build E (vocab (self w)) smi) as [e|tm] eqn:Hb.
      { intros [= <- <-]. done. }
      unfold bind at 1, on_store, alloc. simpl. rewrite Hc.
      destruct (Hs Hc) as (Ht & Hg & Hcg & Hsg & Hsound).
      apply py_getitem_inr in Hsmi as (k & Hk & Hsmi).
      rewrite (py_setitem_ok _ _ _ k)
        by (by rewrite (py_index_length _ (data (self w)))).
      unfold bind; simpl.
      rewrite (py_setitem_ok _ _ _ k)
        by (by rewrite (py_index_length _ (data (self w)))).
      simpl. intros [= <- <-]. simpl. split_and!; try done.
      * intros _. simpl. rewrite !length_insert. split_and!; try done.
        intros k' r'. destruct (decide (k = k')) as [<-|Hne].
        -- intros _. eauto.
        -- rewrite list_lookup_insert_ne by done. apply Hsound.
      * intros ? ? [= <- <-] _. apply py_getitem_inr. exists k. split.
        -- rewrite <- Hk. apply py_index_length.
           by rewrite length_insert.
        -- apply list_lookup_insert_eq. rewrite Ht. by eapply py_index_lt.
  - unfold bind at 1, get_self. unfold bind at 1, lift.
    destruct (py_getitem (data (self w)) index) as [e|smi] eqn:Hsmi.
    { intros [= <- <-]. rewrite Hc. split_and!; try done. }
    unfold bind at 1.
    destruct (build E (vocab (self w)) smi) as [e|tm] eqn:Hb.
    { intros [= <- <-]. rewrite Hc. split_and!; try done. }
    unfold bind, on_store, alloc, ret. simpl. rewrite Hc. simpl.
    intros [= <- <-]. simpl. rewrite Hc. split_and!; done.
Qed.

Lemma candidates_hit E index fuel t (w : World E) r :
  cache_sound (self w) ->
  cache (self w) = true ->
  py_getitem (trees (self w)) index = inr (Some r) ->
  candidates E index fuel t w = (Ret (None, None), w).
Proof.
  intros Hs Hc Hr. destruct (Hs Hc) as (Ht & Hg & Hcg & Hsg & _).
  unfold candidates. unfold bind at 1. rewrite cached_tree_eq, Hc, Hr.
  unfold bind at 1, get_self. rewrite Hcg, Hsg.
  destruct (py_getitem_length (trees (self w))
              (repeat (@None (list (Graph E))) (length (data (self w))))
              index (Some r)) as [y Hy]; [by rewrite repeat_length|done|].
  pose proof (py_getitem_repeat _ _ _ _ Hy) as ->.
  unfold bind, lift, ret. by rewrite Hy.
Qed.

Lemma on_store_self E {A} (m : M (heap (Graph E)) A) (w : World E) :
  self (on_store E m w).2 = self w.
Proof. unfold on_store. by destruct (m (store w)). Qed.

Lemma candidates_no_cache E index fuel t (w : World E) :
  cache (self w) = false ->
  self (candidates E index fuel t w).2 = self w.
Proof.
  intros Hc. unfold candidates. unfold bind at 1.
  rewrite cached_tree_eq, Hc. unfold bind at 1, get_self.
  unfold bind at 1.
  pose proof (on_store_self E (read t) w) as H1.
  destruct (on_store E (read t) w) as [[tr|e| |] w1]; simpl in *; try done.
  unfold bind at 1, lift.
  destruct (cand_loop E tr) as [e|cg]; simpl; [done|].
  unfold bind at 1.
  pose proof (on_store_self E (stereo_part E t fuel) w1) as H2.
  destruct (on_store E (stereo_part E t fuel) w1) as [[sg|e| |] w2];
    simpl in *; try congruence.
  rewrite Hc. unfold bind, ret. simpl. congruence.
Qed.

Lemma getitem_spec E index fuel (w : World E) o w' :
  cache_sound (self w) ->
  getitem E index fuel w = (o, w') ->
  cache_sound (self w')
  /\ (cache (self w) = true -> training (self w) = true ->
      forall dp, o = Ret dp -> exists r g, dp = DP4 r g None None).
Proof.
  intros Hs. unfold getitem. unfold bind at 1.
  destruct (tree_and_graph E index w) as [o1 w1] eqn:H1.
  destruct (tree_and_graph_spec _ _ _ _ _ Hs H1) as (Hs1 & Hc1 & Ht1 & Hr1).
  destruct o1 as [[r g]|e| |]; try (intros [= <- <-]; by split).
  unfold bind at 1, get_self. rewrite Ht1.
  destruct (training (self w)) eqn:Htr; simpl.
  2:{ unfold ret. intros [= <- <-]. by split. }
  destruct (cache (self w)) eqn:Hc.
  - unfold bind. rewrite (candidates_hit E index fuel r w1 r); try done.
    2:{ by apply (Hr1 r g). }
    unfold ret. simpl. intros [= <- <-]. split; [done|].
    intros _ _ dp [= <-]. eauto.
  - unfold bind.
    pose proof (candidates_no_cache E index fuel r w1 Hc1) as H2.
    destruct (candidates E index fuel r w1) as [[cs|e| |] w2];
      simpl in *; intros [= <- <-]; (split; [|done]);
      intros Hd; rewrite H2 in Hd; congruence.
Qed.

Lemma reachable_sound E (w : World E) : reachable w -> cache_sound (self w).
Proof.
  induction 1 as [f v c tr d h Hinit|w index fuel _ IH|w h _ IH]; simpl.
  - unfold JTVAEDataset_init in Hinit.
    destruct (read_data f) as [e|dt]; simpl in Hinit; [done|].
    injection Hinit as <-. intros Hc. simpl in *. subst c.
    rewrite !repeat_length. split_and!; try done.
    intros k r Hk. apply list_elem_of_lookup_2, list_elem_of_In, repeat_spec in Hk.
    done.
  - destruct (getitem E index fuel w) as [o w'] eqn:Hg.
    by destruct (getitem_spec _ _ _ _ _ _ IH Hg).
  - done.
Qed.

Lemma tree_and_graph_raise E index (w : World E) smi e :
  cache_sound (self w) ->
  py_getitem (data (self w)) index = inr smi ->
  build E (vocab (self w)) smi = inl e ->
  tree_and_graph E index w = (Raise e, w).
Proof.
  intros Hs Hsmi Hb. unfold tree_and_graph. unfold bind at 1.
  rewrite cached_tree_eq.
  assert (Hmiss : (if cache (self w) then py_getitem (trees (self w)) index
                   else inr None) = inr None).
  { destruct (cache (self w)) eqn:Hc; [|done].
    destruct (Hs Hc) as (Ht & _ & _ & _ & Hsound).
    destruct (py_getitem_length (data (self w)) (trees (self w)) index smi)
      as [[r|] Hy]; [done|done| |done].
    apply py_getitem_inr in Hy as (k & Hk & Hy).
    apply py_getitem_inr in Hsmi as (k' & Hk' & Hsmi).
    rewrite (py_index_length _ (data (self w))) in Hk by done.
    simplify_eq. destruct (Hsound _ _ Hy) as (smi' & tm & ? & ?).
    congruence. }
  rewrite Hmiss. unfold bind at 1, get_self. unfold bind at 1, lift.
  rewrite Hsmi. unfold bind at 1. by rewrite Hb.
Qed.

Lemma tree_and_graph_no_cache E index (w : World E) smi tm :
  cache (self w) = false ->
  py_getitem (data (self w)) index = inr smi ->
  build E (vocab (self w)) smi = inr tm ->
  tree_and_graph E index w =
  (Ret (length (store w), Some tm.2),
   {| self := self w; store := store w ++ [tm.1] |}).
Proof.
  intros Hc Hsmi Hb. unfold tree_and_graph. unfold bind at 1.
  rewrite cached_tree_eq, Hc. unfold bind at 1, get_self.
  unfold bind at 1, lift. rewrite Hsmi. unfold bind at 1. rewrite Hb.
  unfold bind, on_store, alloc, ret. simpl. by rewrite Hc.
Qed.

Lemma stereo_loop_no_return E r fuel :
  forall k (h : heap (Graph E)) t,
    h !! r = Some t ->
    (k < length (stereo_cands t))%nat ->
    returned (stereo_loop E r k fuel h).1 = false.
Proof.
  induction fuel as [|fuel IH]; intros k h t Hr Hk; simpl; [done|].
  unfold bind at 1. unfold read at 1. rewrite Hr.
  destruct (lookup_lt_is_Some_2 _ _ Hk) as [cand ->].
  unfold bind at 1.
  unfold lift. destruct (bigraph E enc cand) as [e|cg]; [done|].
  unfold bind at 1, write. rewrite Hr.
  apply (IH _ _ (append_stereo (PyGraph cg) t)).
  - apply list_lookup_insert_eq. by eapply lookup_lt_Some.
  - simpl. rewrite length_app. simpl. lia.
Qed.

Lemma str_in_nonempty {G} s (l : list (pyobj G)) :
  str_in s l = true -> (0 < length l)%nat.
Proof. destruct l; simpl; [done|lia]. Qed.

Lemma stereo_part_no_return E r fuel (h : heap (Graph E)) t :
  h !! r = Some t ->
  length (stereo_cands t) <> 1%nat ->
  returned (stereo_part E r fuel h).1 = false.
Proof.
  intros Hr Hlen. unfold stereo_part. unfold bind at 1, read. rewrite Hr.
  destruct (Z.eqb_spec (Z.of_nat (length (stereo_cands t))) 1) as [?|_]; [lia|].
  destruct (str_in (smiles3D t) (stereo_cands t)) eqn:Hin.
  - unfold bind at 1, ret. apply bind_not_returned.
    apply (stereo_loop_no_return E r fuel 0 h t Hr).
    by eapply str_in_nonempty.
  - unfold bind at 1, write. rewrite Hr. apply bind_not_returned.
    eapply stereo_loop_no_return.
    + apply list_lookup_insert_eq. by eapply lookup_lt_Some.
    + simpl. rewrite length_app. simpl. lia.
Qed.

Lemma getitem_stereo_no_return E index fuel (w : World E) smi tm :
  cache (self w) = false ->
  training (self w) = true ->
  py_getitem (data (self w)) index = inr smi ->
  build E (vocab (self w)) smi = inr tm ->
  length (stereo_cands tm.1) <> 1%nat ->
  returned (getitem E index fuel w).1 = false.
Proof.
  intros Hc Htr Hsmi Hb Hlen. unfold getitem. unfold bind at 1.
  rewrite (tree_and_graph_no_cache E index w smi tm) by done.
  unfold bind at 1, get_self. simpl. rewrite Htr. simpl.
  apply bind_not_returned. unfold candidates. unfold bind at 1.
  rewrite cached_tree_eq. simpl. rewrite Hc.
  unfold bind at 1, get_self. simpl.
  assert (Hr : (store w ++ [tm.1]) !! length (store w) = Some tm.1).
  { by rewrite lookup_app_r, Nat.sub_diag. }
  unfold bind at 1, on_store at 1, read. cbn [store]. rewrite Hr.
  unfold bind at 1, lift. destruct (cand_loop E tm.1) as [e|cg]; [done|].
  apply bind_not_returned. unfold on_store. simpl.
  pose proof (stereo_part_no_return E (length (store w)) fuel _ _ Hr Hlen) as H.
  by destruct (stereo_part _ _ _ _) as [[?|?| |] ?].
Qed.

(** In evaluation mode a datapoint is the pair of line 197. *)
Lemma getitem_eval_pair E index fuel (w : World E) smi tm :
  cache (self w) = false ->
  training (self w) = false ->
  py_getitem (data (self w)) index = inr smi ->
  build E (vocab (self w)) smi = inr tm ->
  getitem E index fuel w =
  (Ret (DP2 (length (store w)) (Some tm.2)),
   {| self := self w; store := store w ++ [tm.1] |}).
Proof.
  intros Hc Htr Hsmi Hb. unfold getitem. unfold bind at 1.
  rewrite (tree_and_graph_no_cache E index w smi tm) by done.
  unfold bind, get_self. simpl. by rewrite Htr.
Qed.

(** With a cache, no access in training mode ever yields candidate graphs. *)
Lemma cached_training_never_candidates E index fuel (w : World E) dp w' :
  reachable w ->
  cache (self w) = true ->
  training (self w) = true ->
  getitem E index fuel w = (Ret dp, w') ->
  exists r g, dp = DP4 r g None None.
Proof.
  intros Hw Hc Htr Hg.
  destruct (getitem_spec _ _ _ _ _ _ (reachable_sound _ _ Hw) Hg) as [_ H].
  by apply H.
Qed.

Lemma toy_init c tr :
  JTVAEDataset_init toy toy_file tt c tr = inr (toy_dataset c tr).
Proof. by destruct c. Qed.

Lemma lenient_init c tr :
  JTVAEDataset_init lenient toy_file tt c tr = inr (lenient_dataset c tr).
Proof. by destruct c. Qed.

(** The two places where lines 168-190 meet a text that is no molecule:
    the tree builder of line 169 raises, or the parser of line 183 answers
    [None] and the featurizer of line 184 raises on it. *)
Lemma build_raises_at_tree E v smi e :
  MolTree_new E smi = inl e -> build E v smi = inl e.
Proof. intros He. unfold build. by rewrite He. Qed.

Lemma build_raises_at_featurizer E v smi t0 t1 t2 wid g e :
  MolTree_new E smi = inr t0 ->
  recover E t0 = inr t1 ->
  assemble E t1 = inr t2 ->
  emap (fun kn =>
          try nd <- dict_get (map (fun kn => (kn.1, add_label kn.2))
                                  (nodes_dict t2)) kn.1;
          get_index E v (smiles nd))
       (map (fun kn => (kn.1, add_label kn.2)) (nodes_dict t2)) = inr wid ->
  set_wid E (graph t2) (torch_LongTensor wid) = inr g ->
  get_mol E smi = inr None ->
  mol_to_bigraph E enc PyNone = inl e ->
  build E v smi = inl e.
Proof.
  intros H0 H1 H2 Hw Hg Hm He. unfold build.
  rewrite H0. simpl. rewrite H1. simpl. rewrite H2. simpl.
  rewrite Hw. simpl. rewrite Hg. simpl. rewrite Hm. simpl.
  unfold bigraph. by rewrite He.
Qed.

(** C7: when lines 168-190 raise on the text at an index, whichever call
    of them raises, [__getitem__] raises that same exception, returns no
    datapoint and leaves the dataset and the store as they were; this holds
    in every world a program can reach, cached or not.  A text that is no
    molecule makes these lines raise at the tree builder (line 169) or,
    where the parser answers [None] (line 183), at the featurizer (line
    184): the two lemmas above. *)
Theorem getitem_propagates_parser_exception E index fuel (w : World E) smi e :
  reachable w ->
  py_getitem (data (self w)) index = inr smi ->
  build E (vocab (self w)) smi = inl e ->
  getitem E index fuel w = (Raise e, w).
Proof.
  intros Hw Hsmi Hb. unfold getitem, bind.
  rewrite (tree_and_graph_raise E index w smi e); [done| |done|done].
  by apply reachable_sound.
Qed.

Lemma getitem_propagates_parser_exception_witness :
  getitem toy 3 5 (toy_world true true)
  = (Raise (LibError 1), toy_world true true)
  /\ getitem lenient 3 5 (lenient_world true true)
     = (Raise TypeError, lenient_world true true).
Proof.
  split.
  - apply (getitem_propagates_parser_exception toy 3 5 (toy_world true true)
             (lit "C(") (LibError 1)).
    + apply (reach_init (E:=toy) toy_file tt true true). apply toy_init.
    + reflexivity.
    + reflexivity.
  - apply (getitem_propagates_parser_exception lenient 3 5
             (lenient_world true true) (lit "C(") TypeError).
    + apply (reach_init (E:=lenient) toy_file tt true true).
      apply lenient_init.
    + reflexivity.
    + reflexivity.
Defined.

(** C2 (the code departs from it): on a dataset with [cache=True] and
    [training=True] the first access to index 0 builds and caches the tree
    and the molecular graph, then finds the tree in the cache and reads the
    two candidate entries back, which are [None]; nothing is stored in them
    and the next access returns [None] for them again. *)
Theorem cached_training_access_skips_candidates (fuel : nat) :
  let first := getitem toy 0 fuel (toy_world true true) in
  first.1 = Ret (DP4 (E:=toy) 0%nat (Some 1%nat) None None)
  /\ trees (self first.2) !! 0%nat = Some (Some 0%nat)
  /\ cand_graphs (self first.2) !! 0%nat = Some None
  /\ stereo_cand_graphs (self first.2) !! 0%nat = Some None
  /\ getitem toy 0 fuel first.2 = (Ret (DP4 (E:=toy) 0%nat (Some 1%nat) None None), first.2).
Proof. vm_compute. done. Qed.

(** C3 (the code departs from it): without a cache and in training mode, a
    molecule with more than one stereo candidate makes [__getitem__] append
    each graph to the list it iterates; whatever the featurizer does and
    however long the loop runs, no datapoint is returned. *)
Theorem getitem_stereo_candidates_not_returned E index fuel (w : World E)
    smi t g :
  cache (self w) = false ->
  training (self w) = true ->
  py_getitem (data (self w)) index = inr smi ->
  build E (vocab (self w)) smi = inr (t, g) ->
  (1 < length (stereo_cands t))%nat ->
  returned (getitem E index fuel w).1 = false.
Proof.
  intros Hc Htr Hsmi Hb Hlen.
  apply (getitem_stereo_no_return E index fuel w smi (t, g)); try done.
  simpl. lia.
Qed.

Lemma getitem_stereo_candidates_not_returned_witness :
  returned (getitem toy 1 1000 (toy_world false true)).1 = false.
Proof.
  apply (getitem_stereo_candidates_not_returned toy 1 1000
           (toy_world false true) (lit "C[C@H](N)O")
           (toy_tree ["C[C@H](N)O"; "C[C@@H](N)O"] "C[C@H](N)O") 1%nat).
  - reflexivity.
  - reflexivity.
  - reflexivity.
  - reflexivity.
  - simpl. lia.
Defined.

(** C4 (the code departs from it): the dataset of the evaluation mode
    returns a pair at index 2; the dataset of the training mode returns
    nothing there, for the molecule has two stereo candidates and its 3-D
    SMILES makes a third. *)
Theorem training_access_returns_no_tuple (fuel : nat) :
  (getitem toy 2 fuel (toy_world false false)).1 = Ret (DP2 (E:=toy) 0%nat (Some 1%nat))
  /\ returned (getitem toy 2 fuel (toy_world false true)).1 = false.
Proof.
  split; [reflexivity|].
  eapply getitem_stereo_no_return; [reflexivity..|].
  vm_compute. lia.
Qed.

(** ** The collator *)

(** ** Loops *)

Lemma efold_inv {A B} (P : B -> Prop) (f : B -> A -> exn + B) l acc r :
  (forall b x b', P b -> f b x = inr b' -> P b') ->
  P acc -> efold f l acc = inr r -> P r.
Proof.
  intros Hf. revert acc. induction l as [|x l IH]; intros acc Hacc; simpl.
  - by intros [= <-].
  - destruct (f acc x) as [e|acc'] eqn:Hx; simpl; [done|]. eauto.
Qed.

Lemma fold_m_inv {S A B} (P : B -> Prop) (f : B -> A -> M S B) l acc s r s' :
  (forall b x s1 b' s2, P b -> f b x s1 = (Ret b', s2) -> P b') ->
  P acc -> fold_m f l acc s = (Ret r, s') -> P r.
Proof.
  intros Hf. revert acc s. induction l as [|x l IH]; intros acc s Hacc; simpl.
  - by intros [= <- _].
  - intros (acc' & s1 & Hx & Hrest)%bind_Ret_inv. eauto.
Qed.

Lemma reads_only_ret {S A} (a : A) : reads_only (ret (S:=S) a).
Proof. done. Qed.

Lemma reads_only_lift {S A} (r : exn + A) : reads_only (lift (S:=S) r).
Proof. intros s. by destruct r. Qed.

Lemma reads_only_read {G} r : reads_only (read (G:=G) r).
Proof. intros h. unfold read. by destruct (h !! r). Qed.

Lemma reads_only_bind {S A B} (m : M S A) (k : A -> M S B) :
  reads_only m -> (forall a, reads_only (k a)) -> reads_only (bind m k).
Proof.
  intros Hm Hk s. unfold bind. specialize (Hm s).
  destruct (m s) as [[a|e| |] s1]; simpl in *; subst; [apply Hk|done..].
Qed.

Lemma reads_only_fold_m {S A B} (f : B -> A -> M S B) l acc :
  (forall b x, reads_only (f b x)) -> reads_only (fold_m f l acc).
Proof.
  intros Hf. revert acc. induction l as [|x l IH]; intros acc; simpl.
  - apply reads_only_ret.
  - apply reads_only_bind; [apply Hf|apply IH].
Qed.

Lemma reads_only_tree_graphs E rs : reads_only (tree_graphs E rs).
Proof.
  induction rs as [|r rs IH]; simpl; [apply reads_only_ret|].
  apply reads_only_bind; [apply reads_only_read|]. intros t.
  apply reads_only_bind; [apply IH|]. intros gs. apply reads_only_ret.
Qed.

Lemma reads_only_tree_messages E btg rs : reads_only (tree_messages E btg rs).
Proof.
  unfold tree_messages. apply reads_only_fold_m. intros a it.
  unfold tree_step. apply reads_only_bind; [apply reads_only_read|].
  intros t. apply reads_only_lift.
Qed.

Lemma reads_only_eq {S A} (m : M S A) s o s' :
  reads_only m -> m s = (o, s') -> s' = s.
Proof. intros Hm Hs. specialize (Hm s). by rewrite Hs in Hm. Qed.

(** What a training-mode call that returns has gone through. *)
Lemma collate_train_inv E data (h : heap (Graph E)) out h' :
  collate_train E data h = (Ret out, h') ->
  exists cols gs btg bmg tot h1 a cgs bcg sgs bsg st,
    unpack4 E data = inr cols
    /\ tree_graphs E (map (fun c => c.1.1.1) cols) h = (Ret gs, h)
    /\ dgl_batch E gs = inr btg
    /\ dgl_batch E (map (fun c => c.1.1.2) cols) = inr bmg
    /\ number_nodes E (map (fun c => c.1.1.1) cols) h = (Ret tot, h1)
    /\ tree_messages E btg (map (fun c => c.1.1.1) cols) h1 = (Ret a, h1)
    /\ chain_from_iterable (map (fun c => c.1.2) cols) = inr cgs
    /\ dgl_batch E (map Some cgs) = inr bcg
    /\ chain_from_iterable (map (fun c => c.2) cols) = inr sgs
    /\ dgl_batch E (map Some sgs) = inr bsg
    /\ fold_m (stereo_step E) (enumerate (map (fun c => c.1.1.1) cols))
              ([], []) h1 = (Ret st, h')
    /\ out = Train
         {| batch_trees := map (fun c => c.1.1.1) cols;
            batch_tree_graphs := btg;
            batch_mol_graphs := bmg;
            cand_batch_idx := index_tensor (l_cand_batch_idx a);
            batch_cand_graphs := bcg;
            tree_mess_source_edges := source_tensor (l_source_edges a);
            tree_mess_target_edges :=
              target_tensor (l_source_edges a) (l_target_edges a);
            stereo_cand_batch_idx := index_tensor st.1;
            stereo_cand_labels := st.2;
            batch_stereo_cand_graphs := bsg |}.
Proof.
  unfold collate_train.
  intros (cols & s1 & [Hcols ->]%lift_Ret_inv & H)%bind_Ret_inv.
  apply bind_Ret_inv in H as (gs & s2 & Hgs & H).
  pose proof (reads_only_eq _ _ _ _ (reads_only_tree_graphs E _) Hgs) as ->.
  apply bind_Ret_inv in H as (btg & s3 & [Hbtg ->]%lift_Ret_inv & H).
  apply bind_Ret_inv in H as (bmg & s4 & [Hbmg ->]%lift_Ret_inv & H).
  apply bind_Ret_inv in H as (tot & h1 & Htot & H).
  apply bind_Ret_inv in H as (a & s5 & Ha & H).
  pose proof (reads_only_eq _ _ _ _ (reads_only_tree_messages E _ _) Ha) as ->.
  apply bind_Ret_inv in H as (cgs & s6 & [Hcgs ->]%lift_Ret_inv & H).
  apply bind_Ret_inv in H as (bcg & s7 & [Hbcg ->]%lift_Ret_inv & H).
  apply bind_Ret_inv in H as (sgs & s8 & [Hsgs ->]%lift_Ret_inv & H).
  apply bind_Ret_inv in H as (bsg & s9 & [Hbsg ->]%lift_Ret_inv & H).
  apply bind_Ret_inv in H as (st & s10 & Hst & H).
  unfold ret in H. injection H as <- <-.
  exists cols, gs, btg, bmg, tot, h1, a, cgs, bcg, sgs, bsg, st.
  split_and!; done.
Qed.

(** ** The two lists of tree messages *)

Lemma bond_step_lockstep E btg t a ib a' :
  lockstep a -> bond_step E btg t a ib = inr a' -> lockstep a'.
Proof.
  unfold bond_step, lockstep. intros Ha H.
  repeat (match type of H with
          | ebind ?m _ = _ => destruct m; simpl in H; [done|]
          | (if ?c then _ else _) = _ => destruct c
          end);
    injection H as <-; simpl; rewrite ?length_app; simpl; lia.
Qed.

Lemma mol_step_lockstep E btg t a mol a' :
  lockstep a -> mol_step E btg t a mol = inr a' -> lockstep a'.
Proof.
  unfold mol_step. intros Ha H.
  destruct (efold _ _ a) as [e|a1] eqn:H1; simpl in H; [done|].
  injection H as <-. unfold lockstep. simpl.
  eapply (efold_inv lockstep); [|exact Ha|exact H1].
  intros b x b' Hb Hx. by eapply bond_step_lockstep.
Qed.

Lemma node_step_lockstep E btg t a kn a' :
  lockstep a -> node_step E btg t a kn = inr a' -> lockstep a'.
Proof.
  unfold node_step. intros Ha H. destruct (skipped kn.2); [by simplify_eq|].
  destruct (efold _ _ a) as [e|a1] eqn:H1; simpl in H; [done|].
  injection H as <-. unfold lockstep. simpl.
  eapply (efold_inv lockstep); [|exact Ha|exact H1].
  intros b x b' Hb Hx. by eapply mol_step_lockstep.
Qed.

Lemma tree_messages_lockstep E btg rs (h : heap (Graph E)) a h' :
  tree_messages E btg rs h = (Ret a, h') -> lockstep a.
Proof.
  unfold tree_messages. apply (fold_m_inv lockstep); [|done].
  intros b it s1 b' s2 Hb. unfold tree_step.
  intros (t & s3 & _ & [H _]%lift_Ret_inv)%bind_Ret_inv.
  eapply (efold_inv lockstep); [| |exact H]; [|exact Hb].
  intros ? ? ? ?. by eapply node_step_lockstep.
Qed.

Lemma collate_train_collected E data (h : heap (Graph E)) out h' :
  collate_train E data h = (Ret out, h') ->
  exists a st bt btg bmg bcg bsg,
    collected E data h a st
    /\ out = Train
         {| batch_trees := bt;
            batch_tree_graphs := btg;
            batch_mol_graphs := bmg;
            cand_batch_idx := index_tensor (l_cand_batch_idx a);
            batch_cand_graphs := bcg;
            tree_mess_source_edges := source_tensor (l_source_edges a);
            tree_mess_target_edges :=
              target_tensor (l_source_edges a) (l_target_edges a);
            stereo_cand_batch_idx := index_tensor st.1;
            stereo_cand_labels := st.2;
            batch_stereo_cand_graphs := bsg |}
    /\ lockstep a.
Proof.
  intros (cols & gs & btg & bmg & tot & h1 & a & cgs & bcg & sgs & bsg & st
          & Hcols & Hgs & Hbtg & Hbmg & Htot & Ha & Hcgs & Hbcg & Hsgs & Hbsg
          & Hst & ->)%collate_train_inv.
  exists a, st, (map (fun c => c.1.1.1) cols), btg, bmg, bcg, bsg.
  split; [|split; [done|by eapply tree_messages_lockstep]].
  exists cols, gs, btg. rewrite Hgs, Htot. simpl. rewrite Ha, Hst. done.
Qed.

(** C9: the two tensors of tree messages that a training-mode collation
    returns have the same number of rows, and two columns each. *)
Theorem tree_message_tensors_same_rows E data (h : heap (Graph E)) b h' :
  JTVAECollator_call E true data h = (Ret (Train b), h') ->
  rows (tree_mess_source_edges b) = rows (tree_mess_target_edges b)
  /\ t_shape (tree_mess_source_edges b) = [rows (tree_mess_source_edges b); 2%nat]
  /\ t_shape (tree_mess_target_edges b) = [rows (tree_mess_target_edges b); 2%nat].
Proof.
  simpl.
  intros (a & st & bt & btg & bmg & bcg & bsg & _ & [= ->] & Ha)%collate_train_collected.
  simpl. unfold source_tensor, target_tensor, lockstep in *.
  destruct (l_source_edges a) as [|s src], (l_target_edges a) as [|t tgt];
    simpl in *; done.
Qed.

Lemma tree_message_tensors_same_rows_witness :
  exists b h',
    JTVAECollator_call toy true toy_data toy_heap = (Ret (Train b), h')
    /\ rows (tree_mess_source_edges b) = 4%nat
    /\ rows (tree_mess_source_edges b) = rows (tree_mess_target_edges b).
Proof.
  eexists _, _. split; [vm_compute; reflexivity|]. split; [reflexivity|].
  eapply (tree_message_tensors_same_rows toy toy_data toy_heap).
  vm_compute. reflexivity.
Defined.

(** Lines 348-358 and 371-374, for a training-mode collation that gets as
    far as its return statement: when it has collected no tree-message
    edge, both edge tensors it returns are the 0-by-2 integer tensor; when
    it has collected no candidate entry (no stereo candidate entry), the
    candidate (stereo candidate) index tensor it returns is the long tensor
    of length 0. *)
Theorem empty_lists_give_empty_tensors E data (h : heap (Graph E)) b h' :
  JTVAECollator_call E true data h = (Ret (Train b), h') ->
  exists a st,
    collected E data h a st
    /\ (length (l_source_edges a) = 0%nat ->
        tree_mess_source_edges b
          = {| t_dtype := int32; t_shape := [0; 2]%nat; t_data := [] |}
        /\ tree_mess_target_edges b
          = {| t_dtype := int32; t_shape := [0; 2]%nat; t_data := [] |})
    /\ (length (l_cand_batch_idx a) = 0%nat ->
        cand_batch_idx b
          = {| t_dtype := int64; t_shape := [0%nat]; t_data := [] |})
    /\ (length st.1 = 0%nat ->
        stereo_cand_batch_idx b
          = {| t_dtype := int64; t_shape := [0%nat]; t_data := [] |}).
Proof.
  simpl.
  intros (a & st & bt & btg & bmg & bcg & bsg & Hc & [= ->] & _)%collate_train_collected.
  exists a, st. split; [done|]. simpl.
  unfold source_tensor, target_tensor, index_tensor.
  split_and!; intros ->; done.
Qed.

Lemma empty_lists_give_empty_tensors_witness :
  exists b h' a st,
    JTVAECollator_call toy true
      [DP4 (E:=toy) 0%nat (Some 1%nat) (Some []) (Some [])] [toy_leaf_tree]
      = (Ret (Train b), h')
    /\ collected toy [DP4 (E:=toy) 0%nat (Some 1%nat) (Some []) (Some [])]
         [toy_leaf_tree] a st
    /\ length (l_source_edges a) = 0%nat
    /\ t_shape (tree_mess_source_edges b) = [0; 2]%nat
    /\ t_shape (cand_batch_idx b) = [0%nat].
Proof.
  assert (Hrun : exists b h',
    JTVAECollator_call toy true
      [DP4 (E:=toy) 0%nat (Some 1%nat) (Some []) (Some [])] [toy_leaf_tree]
      = (Ret (Train b), h')).
  { eexists _, _. vm_compute. reflexivity. }
  destruct Hrun as (b & h' & Hrun).
  destruct (empty_lists_give_empty_tensors toy _ _ b h' Hrun)
    as (a & st & Hc & Hsrc & Hcand & Hst).
  exists b, h', a, st. split; [exact Hrun|]. split; [exact Hc|].
  assert (Ha : length (l_source_edges a) = 0%nat
               /\ length (l_cand_batch_idx a) = 0%nat).
  { destruct Hc as (cols & gs & btg & Hcols & Hgs & Hbtg & Ha & Hs).
    injection Hcols as <-. simpl in Ha. injection Ha as <-. done. }
  destruct Ha as [Ha1 Ha2]. split; [exact Ha1|].
  rewrite (proj1 (Hsrc Ha1)), (Hcand Ha2). done.
Defined.

(** C1 (the code departs from it): in the batch of the two trees of
    [toy_heap], at positions 0 and 1 and with two candidates each, the four
    entries of the candidate index tensor are 2, the counter of the last
    bond of the last candidate molecule: the inner [enumerate] loop assigns
    the variable [i] of the outer one. *)
Theorem cand_batch_idx_holds_bond_counter :
  exists b h',
    JTVAECollator_call toy true toy_data toy_heap = (Ret (Train b), h')
    /\ batch_trees b = [0; 1]%nat
    /\ cand_batch_idx b
       = {| t_dtype := int64; t_shape := [4%nat]; t_data := [2; 2; 2; 2] |}.
Proof. eexists _, _. split; [vm_compute; reflexivity|]. by split. Qed.

(** ** Numbering the nodes *)

Lemma with_nodes_id {G} (t : MolTree G) : with_nodes t (nodes_dict t) = t.
Proof. by destruct t. Qed.

Lemma with_nodes_twice {G} (t : MolTree G) d d' :
  with_nodes (with_nodes t d) d' = with_nodes t d'.
Proof. done. Qed.

Lemma dict_get_app {V} (pre : dict V) k v suf :
  k ∉ map fst pre -> dict_get (pre ++ (k, v) :: suf) k = inr v.
Proof.
  induction pre as [|[k' v'] pre IH]; simpl; intros Hk.
  - by rewrite Z.eqb_refl.
  - apply not_elem_of_cons in Hk as [Hne Hk].
    destruct (Z.eqb_spec k' k); [congruence|]. by apply IH.
Qed.

Lemma dict_alter_app {V} (f : V -> V) (pre : dict V) k v suf :
  k ∉ map fst pre ->
  dict_alter f k (pre ++ (k, v) :: suf) = pre ++ (k, f v) :: suf.
Proof.
  induction pre as [|[k' v'] pre IH]; simpl; intros Hk.
  - by rewrite Z.eqb_refl.
  - apply not_elem_of_cons in Hk as [Hne Hk].
    destruct (Z.eqb_spec k' k); [congruence|]. by rewrite IH.
Qed.

Lemma renumber_cons tot kn d :
  renumber tot (kn :: d) = (kn.1, set_idx tot kn.2) :: renumber (tot + 1) d.
Proof.
  unfold renumber. simpl. rewrite Z.add_0_r. f_equal.
  apply imap_ext. intros j x _. simpl. do 2 f_equal. lia.
Qed.

Lemma renumber_length tot d : length (renumber tot d) = length d.
Proof. unfold renumber. by rewrite length_imap. Qed.

Lemma renumber_keys tot d : map fst (renumber tot d) = map fst d.
Proof.
  revert tot. induction d as [|kn d IH]; intros tot; [done|].
  rewrite renumber_cons. simpl. by rewrite IH.
Qed.

Lemma renumber_twice tot tot' d :
  renumber tot (renumber tot' d) = renumber tot d.
Proof.
  revert tot tot'. induction d as [|kn d IH]; intros tot tot'; [done|].
  rewrite !renumber_cons. simpl. by rewrite IH.
Qed.

Lemma number_node_eq E r tot k (h : heap (Graph E)) t nd :
  h !! r = Some t ->
  dict_get (nodes_dict t) k = inr nd ->
  number_node E r tot k h
  = (Ret (tot + 1),
     <[r := with_nodes t (dict_alter (set_idx tot) k (nodes_dict t))]> h).
Proof.
  intros Hr Hk. unfold number_node, bind, read, lift, write, ret.
  by rewrite Hr, Hk, Hr.
Qed.

(** Lines 307-309 over the keys of one tree: every node of the tree is
    numbered, in order. *)
Lemma number_keys E r suf :
  forall pre tot (h : heap (Graph E)) t,
    h !! r = Some t ->
    nodes_dict t = pre ++ suf ->
    NoDup (map fst (pre ++ suf)) ->
    fold_m (number_node E r) (map fst suf) tot h
    = (Ret (tot + Z.of_nat (length suf)),
       <[r := with_nodes t (pre ++ renumber tot suf)]> h).
Proof.
  induction suf as [|[k nd] suf IH]; intros pre tot h t Hr Hd Hnd; simpl.
  - unfold ret. rewrite Z.add_0_r, app_nil_r. rewrite app_nil_r in Hd.
    rewrite <- Hd, with_nodes_id, list_insert_id; done.
  - assert (Hk : k ∉ map fst pre).
    { rewrite map_app in Hnd. apply NoDup_app in Hnd as (_ & Hnd & _).
      intros Hin. apply (Hnd _ Hin). simpl. left. }
    unfold bind at 1.
    rewrite (number_node_eq E r tot k h t nd Hr)
      by (by rewrite Hd, dict_get_app).
    rewrite Hd, dict_alter_app by done.
    rewrite (IH (pre ++ [(k, set_idx tot nd)]) (tot + 1) _
                (with_nodes t (pre ++ (k, set_idx tot nd) :: suf))).
    + rewrite list_insert_insert_eq, with_nodes_twice, renumber_cons.
      simpl. rewrite <- app_assoc. simpl. do 2 f_equal. lia.
    + apply list_lookup_insert_eq. by eapply lookup_lt_Some.
    + simpl. by rewrite <- app_assoc.
    + rewrite <- app_assoc. simpl. rewrite !map_app in *. done.
Qed.

Lemma number_tree E r tot (h : heap (Graph E)) t :
  h !! r = Some t ->
  keys_unique t ->
  (do t <- read r; fold_m (number_node E r) (map fst (nodes_dict t)) tot) h
  = (Ret (tot + Z.of_nat (length (nodes_dict t))),
     <[r := with_nodes t (renumber tot (nodes_dict t))]> h).
Proof.
  intros Hr Hk. unfold bind, read. rewrite Hr.
  by rewrite (number_keys E r (nodes_dict t) [] tot h t).
Qed.

Lemma tree_size_insert {G} (h : heap G) r0 t0 d r :
  h !! r0 = Some t0 ->
  length d = length (nodes_dict t0) ->
  tree_size (<[r0 := with_nodes t0 d]> h) r = tree_size h r.
Proof.
  intros H0 Hd. unfold tree_size. destruct (decide (r0 = r)) as [<-|Hne].
  - rewrite list_lookup_insert_eq by (by eapply lookup_lt_Some).
    by rewrite H0.
  - by rewrite list_lookup_insert_ne.
Qed.

Lemma tot_at_ext {G} (h h' : heap G) rs k :
  (forall r, tree_size h' r = tree_size h r) -> tot_at h' rs k = tot_at h rs k.
Proof.
  intros H. unfold tot_at. do 2 f_equal. apply map_ext. intros r. apply H.
Qed.

Lemma tot_at_S {G} (h : heap G) r0 rs k :
  tot_at h (r0 :: rs) (S k) = Z.of_nat (tree_size h r0) + tot_at h rs k.
Proof. unfold tot_at. simpl. lia. Qed.

(** Lines 305-309: the trees of the batch are numbered one after the
    other; the tree at the last position of a reference keeps the numbers it
    got there. *)
Lemma number_trees E rs :
  forall tot (h : heap (Graph E)) tot' h1,
    Forall keys_unique h ->
    fold_m (fun tot r =>
              do t <- read r;
              fold_m (number_node E r) (map fst (nodes_dict t)) tot)
           rs tot h = (Ret tot', h1) ->
    Forall keys_unique h1
    /\ (forall r, tree_size h1 r = tree_size h r)
    /\ (forall r, r ∉ rs -> h1 !! r = h !! r)
    /\ (forall (k : nat) r t,
          rs !! k = Some r ->
          (forall k' : nat, (k < k')%nat -> rs !! k' <> Some r) ->
          h !! r = Some t ->
          h1 !! r = Some (with_nodes t
                            (renumber (tot + tot_at h rs k) (nodes_dict t)))).
Proof.
  induction rs as [|r0 rs IH]; intros tot h tot' h1 Hu; simpl.
  - intros [= <- <-]. split_and!; try done.
  - intros (tot0 & h0 & H0 & Hrest)%bind_Ret_inv.
    destruct (h !! r0) as [t0|] eqn:Hr0.
    2:{ unfold bind, read in H0. by rewrite Hr0 in H0. }
    assert (Hk0 : keys_unique t0).
    { eapply Forall_lookup_1; [exact Hu|exact Hr0]. }
    rewrite (number_tree E r0 tot h t0 Hr0 Hk0) in H0.
    injection H0 as <- <-.
    set (t0' := with_nodes t0 (renumber tot (nodes_dict t0))) in *.
    assert (Hu0 : Forall keys_unique (<[r0 := t0']> h)).
    { apply Forall_insert; [done|].
      unfold keys_unique, t0'. simpl. by rewrite renumber_keys. }
    assert (Hsz : forall r, tree_size (<[r0 := t0']> h) r = tree_size h r).
    { intros r. apply tree_size_insert; [done|]. apply renumber_length. }
    destruct (IH _ _ _ _ Hu0 Hrest) as (Hu1 & Hsz1 & Hframe & Hpos).
    split_and!.
    + done.
    + intros r. by rewrite Hsz1.
    + intros r [Hne Hr]%not_elem_of_cons. rewrite Hframe by done.
      by rewrite list_lookup_insert_ne.
    + intros k r t Hk Hlast Hr. destruct k as [|k]; simpl in Hk.
      * injection Hk as <-.
        assert (Hnot : r0 ∉ rs).
        { intros (k' & Hk')%list_elem_of_lookup_1.
          apply (Hlast (S k')); [lia|done]. }
        rewrite Hframe by done.
        rewrite list_lookup_insert_eq by (by eapply lookup_lt_Some).
        unfold t0'. simplify_eq. do 3 f_equal. unfold tot_at. simpl. lia.
      * assert (Hlast' : forall k' : nat, (k < k')%nat -> rs !! k' <> Some r).
        { intros k' Hk'. apply (Hlast (S k')). lia. }
        rewrite tot_at_S. unfold tree_size at 1. rewrite Hr0.
        destruct (decide (r0 = r)) as [<-|Hne].
        -- rewrite (Hpos k r0 t0' Hk Hlast')
             by (apply list_lookup_insert_eq; by eapply lookup_lt_Some).
           simplify_eq. unfold t0'. rewrite with_nodes_twice. simpl.
           rewrite renumber_twice, (tot_at_ext h) by done.
           do 3 f_equal. lia.
        -- rewrite (Hpos k r t Hk Hlast')
             by (by rewrite list_lookup_insert_ne).
           rewrite (tot_at_ext h) by done. do 3 f_equal. lia.
Qed.

(** ** The stereo candidates *)

Lemma str_in_app {G} s (l l' : list (pyobj G)) :
  str_in s (l ++ l') = str_in s l || str_in s l'.
Proof. unfold str_in. apply existsb_app. Qed.

Lemma add_smiles3D_idem {G} (t : MolTree G) :
  add_smiles3D (add_smiles3D t) = add_smiles3D t.
Proof.
  unfold add_smiles3D at 2.
  destruct (Z.of_nat (length (stereo_cands t)) =? 1) eqn:H1.
  { unfold add_smiles3D. by rewrite H1. }
  destruct (str_in (smiles3D t) (stereo_cands t)) eqn:H2.
  { unfold add_smiles3D. by rewrite H1, H2. }
  unfold add_smiles3D. simpl. rewrite str_in_app. simpl.
  rewrite bool_decide_true by done. rewrite !orb_true_r, H1, H2.
  by case_match.
Qed.

Lemma add_smiles3D_with_nodes {G} (t : MolTree G) d :
  add_smiles3D (with_nodes t d) = with_nodes (add_smiles3D t) d.
Proof. unfold add_smiles3D. simpl. by repeat case_match. Qed.

Lemma add_smiles3D_fields {G} (t : MolTree G) :
  nodes_dict (add_smiles3D t) = nodes_dict t
  /\ graph (add_smiles3D t) = graph t
  /\ smiles3D (add_smiles3D t) = smiles3D t.
Proof. unfold add_smiles3D. by repeat case_match. Qed.

(** Lines 362-369 on one tree. *)
Lemma stereo_step_store E st it (h : heap (Graph E)) st' h0 :
  stereo_step E st it h = (Ret st', h0) ->
  exists t, h !! it.2 = Some t /\ h0 = <[it.2 := add_smiles3D t]> h.
Proof.
  unfold stereo_step. intros (t & s1 & Hread & H)%bind_Ret_inv.
  unfold read in Hread. destruct (h !! it.2) as [t0|] eqn:Hr; [|done].
  injection Hread as -> ->. exists t. split; [done|].
  unfold add_smiles3D.
  destruct (Z.of_nat (length (stereo_cands t)) =? 1).
  { injection H as _ <-. by rewrite list_insert_id. }
  apply bind_Ret_inv in H as ([] & s2 & Hw & H).
  apply bind_Ret_inv in H as (t2 & s3 & Hread2 & H).
  pose proof (reads_only_eq _ _ _ _ (reads_only_read _) Hread2) as ->.
  apply bind_Ret_inv in H as (pos & s4 & [_ ->]%lift_Ret_inv & H).
  injection H as _ <-.
  destruct (str_in (smiles3D t) (stereo_cands t)).
  - injection Hw as <-. by rewrite list_insert_id.
  - unfold write in Hw. rewrite Hr in Hw. by injection Hw as <-.
Qed.

Lemma stereo_fold_store E its :
  forall st (h : heap (Graph E)) st' h',
    fold_m (stereo_step E) its st h = (Ret st', h') ->
    forall r : nat,
      h' !! r = if bool_decide (r ∈ map snd its)
                then add_smiles3D <$> h !! r else h !! r.
Proof.
  induction its as [|it its IH]; intros st h st' h'; simpl.
  - by intros [= _ <-] r.
  - intros (st0 & h0 & (t & Ht & ->)%stereo_step_store & Hrest)%bind_Ret_inv r.
    rewrite (IH _ _ _ _ Hrest r).
    destruct (decide (it.2 = r)) as [<-|Hne].
    + rewrite list_lookup_insert_eq by (by eapply lookup_lt_Some).
      rewrite Ht. simpl.
      rewrite (bool_decide_true (it.2 ∈ it.2 :: map snd its)) by left.
      case_bool_decide; [by rewrite add_smiles3D_idem|done].
    + rewrite list_lookup_insert_ne by done.
      rewrite (bool_decide_ext (r ∈ map snd (it :: its)) (r ∈ map snd its));
        [done|]. simpl. rewrite elem_of_cons.
      split; [by intros [->|?]|by right].
Qed.

Lemma map_snd_enumerate {A} (l : list A) : map snd (enumerate l) = l.
Proof.
  unfold enumerate. generalize Z.of_nat as g.
  induction l as [|x l IH]; intros g; simpl; [done|]. f_equal. apply IH.
Qed.

Lemma unpack4_trees E data cols :
  unpack4 E data = inr cols ->
  map (fun c => c.1.1.1) cols = map (dp_tree E) data.
Proof.
  unfold unpack4. destruct data as [|dp0 data0]; [done|].
  generalize (dp0 :: data0) as l. clear. intros l. revert cols.
  induction l as [|dp l IH]; intros cols; simpl.
  - by intros [= <-].
  - destruct dp as [|r g c s]; simpl; [done|].
    destruct (emap _ l) as [e|cols'] eqn:Hl; simpl; [done|].
    intros [= <-]. simpl. f_equal. by apply IH.
Qed.




(** ** The candidate index *)

Lemma efold_app {A B} (f : B -> A -> exn + B) l l' acc :
  efold f (l ++ l') acc = (try acc' <- efold f l acc; efold f l' acc').
Proof.
  revert acc. induction l as [|x l IH]; intros acc; simpl; [done|].
  destruct (f acc x); simpl; [done|apply IH].
Qed.

Lemma enumerate_snoc {A} (l : list A) x :
  enumerate (l ++ [x]) = enumerate l ++ [(Z.of_nat (length l), x)].
Proof. unfold enumerate. rewrite imap_app. simpl. by rewrite Nat.add_0_r. Qed.

Lemma bond_step_counter E btg t a ib a' :
  bond_step E btg t a ib = inr a' ->
  var_i a' = ib.1 /\ l_cand_batch_idx a' = l_cand_batch_idx a.
Proof.
  unfold bond_step. intros H.
  repeat (match type of H with
          | ebind ?m _ = _ => destruct m; simpl in H; [done|]
          | (if ?c then _ else _) = _ => destruct c
          end);
    by injection H as <-.
Qed.

Lemma bonds_keep_entries E btg t ibs a a' :
  efold (bond_step E btg t) ibs a = inr a' ->
  l_cand_batch_idx a' = l_cand_batch_idx a.
Proof.
  apply (efold_inv (fun b => l_cand_batch_idx b = l_cand_batch_idx a));
    [|done].
  intros b x b' Hb [_ Hx]%bond_step_counter. congruence.
Qed.

(** After the bonds of a molecule, [i] is the counter of its last bond. *)
Lemma mol_step_counter E btg t a mol a' :
  mol_step E btg t a mol = inr a' ->
  l_cand_batch_idx a' = l_cand_batch_idx a
  /\ (GetBonds mol <> [] ->
      var_i a' = Z.of_nat (length (GetBonds mol)) - 1).
Proof.
  unfold mol_step. intros H.
  destruct (efold _ _ a) as [e|a1] eqn:H1; simpl in H; [done|].
  injection H as <-. simpl. split; [by eapply bonds_keep_entries|].
  intros Hne. destruct (GetBonds mol) as [|b0 bs _] using rev_ind; [done|].
  rewrite enumerate_snoc, efold_app in H1.
  destruct (efold _ (enumerate bs) a) as [e|a0]; simpl in H1; [done|].
  destruct (bond_step E btg t a0 _) as [e|a2] eqn:H2; simpl in H1; [done|].
  injection H1 as <-. apply bond_step_counter in H2 as [-> _]. simpl.
  rewrite length_app. simpl. lia.
Qed.

(** Line 341 appends one entry per candidate of a node that is not skipped,
    and each entry is the counter of the last bond of its last candidate
    molecule, wherever the tree stands in the batch. *)
Lemma node_step_entries E btg t a kn a' mols mol :
  node_step E btg t a kn = inr a' ->
  skipped kn.2 = false ->
  cand_mols kn.2 = mols ++ [mol] ->
  GetBonds mol <> [] ->
  l_cand_batch_idx a'
  = l_cand_batch_idx a
    ++ repeat (Z.of_nat (length (GetBonds mol)) - 1) (length (cands kn.2)).
Proof.
  unfold node_step. intros H Hs Hm Hb. cbv zeta in H.
  rewrite Hs, Hm, efold_app in H.
  destruct (efold _ mols a) as [e|a0] eqn:H0; simpl in H; [done|].
  destruct (mol_step E btg t a0 mol) as [e|a1] eqn:H1; simpl in H; [done|].
  injection H as <-. simpl.
  apply mol_step_counter in H1 as [Hl Hi]. rewrite Hi, Hl by done.
  f_equal.
  eapply (efold_inv (fun b => l_cand_batch_idx b = l_cand_batch_idx a));
    [|done|exact H0].
  intros b x b' Hb' [Hx _]%mol_step_counter. congruence.
Qed.

(** * Further properties *)

(** ** The stored datapoints *)

Lemma drop_while_app_all {A} (p : A -> bool) (a l : list A) :
  Forall (fun x => p x = true) a -> drop_while p (a ++ l) = drop_while p l.
Proof. induction 1 as [|x a Hx _ IH]; simpl; [done|]. by rewrite Hx. Qed.

Lemma drop_while_app_stop {A} (p : A -> bool) (l b : list A) x l' :
  drop_while p l = x :: l' -> drop_while p (l ++ b) = x :: l' ++ b.
Proof.
  induction l as [|y l IH]; simpl; [done|].
  destruct (p y); [done|]. by intros [= -> ->].
Qed.

Lemma take_while_app_none {A} (p : A -> bool) (l b : list A) :
  Forall (fun x => p x = false) b -> take_while p (l ++ b) = take_while p l.
Proof.
  intros Hb. induction l as [|x l IH]; simpl.
  - destruct Hb as [|y b Hy _]; simpl; [done|]. by rewrite Hy.
  - by rewrite IH.
Qed.

Lemma first_token_app_blank_l a s : blank a -> first_token (a ++ s) = first_token s.
Proof. intros Ha. unfold first_token. by rewrite drop_while_app_all. Qed.

Lemma first_token_app_blank_r s b : blank b -> first_token (s ++ b) = first_token s.
Proof.
  intros Hb. unfold first_token.
  destruct (drop_while isspace s) as [|x l'] eqn:Hs.
  - assert (Hbl : blank (s ++ b)).
    { apply Forall_app. split; [|done]. by apply first_token_nil; unfold first_token; rewrite Hs. }
    apply first_token_nil in Hbl. unfold first_token in Hbl. by rewrite Hbl.
  - rewrite (drop_while_app_stop _ _ b _ _ Hs), app_comm_cons.
    apply take_while_app_none.
    eapply Forall_impl; [exact Hb|]. intros c Hc. simpl. by rewrite Hc.
Qed.

(** Stripping does not change the first token. *)
Lemma first_token_strip s :
  first_token (py_strip strip_chars s) = first_token s.
Proof.
  destruct (py_strip_split strip_chars s) as (a & b & Hs & Ha & Hb).
  rewrite Hs at 2.
  rewrite first_token_app_blank_l, first_token_app_blank_r; [done| |].
  - eapply Forall_impl; [exact Hb|]. apply strip_chars_space.
  - eapply Forall_impl; [exact Ha|]. apply strip_chars_space.
Qed.

Lemma first_token_clean s : ~ blank s -> clean (first_token s).
Proof.
  intros Hs. split.
  - by rewrite first_token_nil.
  - unfold first_token. eapply Forall_impl; [apply take_while_Forall|].
    intros c Hc. simpl in Hc. by destruct (isspace c).
Qed.

Lemma read_data_inr f d :
  read_data f = inr d -> Forall (fun line => ~ blank line) f.
Proof.
  intros Hd. destruct (decide (Forall (fun line => ~ blank line) f)) as [|Hn];
    [done|].
  apply not_Forall_Exists in Hn; [|apply _].
  rewrite (read_data_blank f) in Hd; [done|].
  eapply Exists_impl; [exact Hn|]. intros line Hl. simpl in Hl.
  by destruct (decide (blank line)).
Qed.

Lemma init_data E f v c tr ds :
  JTVAEDataset_init E f v c tr = inr ds ->
  Forall (fun line => ~ blank line) f
  /\ data ds = map first_token f.
Proof.
  unfold JTVAEDataset_init. intros H.
  destruct (read_data f) as [e|d] eqn:Hd; simpl in H; [done|].
  injection H as <-. simpl.
  pose proof (read_data_inr f d Hd) as Hf. split; [done|].
  rewrite (read_data_ok f Hf) in Hd. injection Hd as <-.
  apply map_ext. intros line. apply first_token_strip.
Qed.

(** X1: a dataset that has been built stores, for every line of the file,
    the first whitespace-separated token of the raw line: the call to
    [strip] makes no difference and further columns on a line are left
    out. *)
Theorem init_stores_first_tokens E f v c tr ds :
  JTVAEDataset_init E f v c tr = inr ds ->
  data ds = map first_token f.
Proof. intros H. by apply init_data in H as [_ H]. Qed.

Lemma init_stores_first_tokens_witness :
  data (toy_dataset false true) = map first_token toy_file.
Proof.
  apply (init_stores_first_tokens toy toy_file tt false true). apply toy_init.
Defined.

(** X2: every datapoint of a dataset that has been built is a text that is
    not empty and holds no whitespace. *)
Theorem init_data_clean E f v c tr ds :
  JTVAEDataset_init E f v c tr = inr ds ->
  Forall clean (data ds).
Proof.
  intros [Hf ->]%init_data. apply Forall_fmap.
  eapply Forall_impl; [exact Hf|]. intros line. apply first_token_clean.
Qed.

Lemma init_data_clean_witness : Forall clean (data (toy_dataset true false)).
Proof.
  apply (init_data_clean toy toy_file tt true false). apply toy_init.
Defined.

(** ** Indices of a datapoint *)

Lemma py_index_None {A} (l : list A) i :
  ~ (- Z.of_nat (length l) <= i < Z.of_nat (length l)) ->
  py_index l i = None.
Proof.
  intros H. unfold py_index.
  destruct (Z.leb_spec 0 i), (Z.ltb_spec i (Z.of_nat (length l))),
    (Z.leb_spec (- Z.of_nat (length l)) i), (Z.ltb_spec i 0); simpl;
    try done; lia.
Qed.

Lemma py_getitem_out {A} (l : list A) i :
  ~ (- Z.of_nat (length l) <= i < Z.of_nat (length l)) ->
  py_getitem l i = inl IndexError.
Proof. intros H. unfold py_getitem. by rewrite py_index_None. Qed.

Lemma py_index_neg {A} (l : list A) i :
  - Z.of_nat (length l) <= i < 0 ->
  py_index l i = py_index l (i + Z.of_nat (length l)).
Proof.
  intros H. unfold py_index.
  destruct (Z.leb_spec 0 i), (Z.ltb_spec i (Z.of_nat (length l))),
    (Z.leb_spec (- Z.of_nat (length l)) i), (Z.ltb_spec i 0),
    (Z.leb_spec 0 (i + Z.of_nat (length l))),
    (Z.ltb_spec (i + Z.of_nat (length l)) (Z.of_nat (length l)));
    simpl; try lia. f_equal. lia.
Qed.

Lemma py_getitem_neg {A} (l : list A) i n :
  length l = n -> - Z.of_nat n <= i < 0 ->
  py_getitem l i = py_getitem l (i + Z.of_nat n).
Proof. intros <- H. unfold py_getitem. by rewrite py_index_neg. Qed.

Lemma py_setitem_neg {A} (l : list A) i n x :
  length l = n -> - Z.of_nat n <= i < 0 ->
  py_setitem l i x = py_setitem l (i + Z.of_nat n) x.
Proof. intros <- H. unfold py_setitem. by rewrite py_index_neg. Qed.

(** X3: an index outside [-len, len) makes [__getitem__] raise [IndexError]
    and leaves the dataset and the store as they were, with or without a
    cache. *)
Theorem getitem_out_of_range E index fuel (w : World E) :
  reachable w ->
  ~ (- JTVAEDataset_len (self w) <= index < JTVAEDataset_len (self w)) ->
  getitem E index fuel w = (Raise IndexError, w).
Proof.
  unfold JTVAEDataset_len. intros Hw Hi. apply reachable_sound in Hw.
  unfold getitem, tree_and_graph. unfold bind at 1. unfold bind at 1.
  rewrite cached_tree_eq. destruct (cache (self w)) eqn:Hc.
  - destruct (Hw Hc) as (Ht & _). rewrite py_getitem_out; [done|].
    by rewrite Ht.
  - unfold bind at 1, get_self. unfold bind at 1, lift.
    by rewrite py_getitem_out.
Qed.

Lemma getitem_out_of_range_witness :
  getitem toy 4 0 (toy_world true true) = (Raise IndexError, toy_world true true)
  /\ getitem toy (-5) 0 (toy_world false true)
     = (Raise IndexError, toy_world false true).
Proof.
  split.
  - apply (getitem_out_of_range toy 4 0 (toy_world true true)).
    + apply (reach_init (E:=toy) toy_file tt true true). apply toy_init.
    + unfold JTVAEDataset_len. simpl. lia.
  - apply (getitem_out_of_range toy (-5) 0 (toy_world false true)).
    + apply (reach_init (E:=toy) toy_file tt false true). apply toy_init.
    + unfold JTVAEDataset_len. simpl. lia.
Defined.

(** [tree_and_graph] and [candidates] written out on a world. *)
Lemma tree_and_graph_eq E index (w : World E) :
  tree_and_graph E index w =
  match (if cache (self w) then py_getitem (trees (self w)) index
         else inr None) with
  | inl e => (Raise e, w)
  | inr (Some r) =>
      match py_getitem (mol_graphs (self w)) index with
      | inl e => (Raise e, w)
      | inr g => (Ret (r, g), w)
      end
  | inr None =>
      match py_getitem (data (self w)) index with
      | inl e => (Raise e, w)
      | inr smi =>
          match build E (vocab (self w)) smi with
          | inl e => (Raise e, w)
          | inr tm =>
              let w1 := {| self := self w; store := store w ++ [tm.1] |} in
              let r := length (store w) in
              if cache (self w) then
                match py_setitem (trees (self w)) index (Some r) with
                | inl e => (Raise e, w1)
                | inr ts =>
                    match py_setitem (mol_graphs (self w)) index
                                     (Some tm.2) with
                    | inl e => (Raise e, w1)
                    | inr gs =>
                        (Ret (r, Some tm.2),
                         {| self := with_trees E (self w) ts gs;
                            store := store w ++ [tm.1] |})
                    end
                end
              else (Ret (r, Some tm.2), w1)
          end
      end
  end.
Proof.
  unfold tree_and_graph. unfold bind at 1. rewrite cached_tree_eq.
  destruct (if cache (self w) then _ else _) as [e|[r|]]; [done| |].
  - unfold bind, get_self, lift, ret.
    by destruct (py_getitem (mol_graphs (self w)) index).
  - unfold bind, get_self, lift, ret.
    destruct (py_getitem (data (self w)) index) as [e|smi]; [done|].
    destruct (build E (vocab (self w)) smi) as [e|tm]; [done|].
    simpl. destruct (cache (self w)); [|done].
    destruct (py_setitem (trees (self w)) _ _); simpl; [done|].
    by destruct (py_setitem (mol_graphs (self w)) _ _).
Qed.

Lemma candidates_eq E index fuel t (w : World E) :
  candidates E index fuel t w =
  match (if cache (self w) then py_getitem (trees (self w)) index
         else inr None) with
  | inl e => (Raise e, w)
  | inr (Some _) =>
      match py_getitem (cand_graphs (self w)) index with
      | inl e => (Raise e, w)
      | inr cg =>
          match py_getitem (stereo_cand_graphs (self w)) index with
          | inl e => (Raise e, w)
          | inr sg => (Ret (cg, sg), w)
          end
      end
  | inr None =>
      match store w !! t with
      | None => (Dangling, w)
      | Some tr =>
          match cand_loop E tr with
          | inl e => (Raise e, w)
          | inr cg =>
              let w1 := {| self := self w;
                           store := (stereo_part E t fuel (store w)).2 |} in
              match (stereo_part E t fuel (store w)).1 with
              | Ret sg =>
                  if cache (self w) then
                    match py_setitem (cand_graphs (self w)) index
                                     (Some cg) with
                    | inl e => (Raise e, w1)
                    | inr cgs =>
                        match py_setitem (stereo_cand_graphs (self w)) index
                                         (Some sg) with
                        | inl e => (Raise e, w1)
                        | inr sgs =>
                            (Ret (Some cg, Some sg),
                             {| self := with_cands E (self w) cgs sgs;
                                store := (stereo_part E t fuel (store w)).2 |})
                        end
                    end
                  else (Ret (Some cg, Some sg), w1)
              | Raise e => (Raise e, w1)
              | OutOfFuel => (OutOfFuel, w1)
              | Dangling => (Dangling, w1)
              end
          end
      end
  end.
Proof.
  unfold candidates. unfold bind at 1. rewrite cached_tree_eq.
  destruct (if cache (self w) then _ else _) as [e|[r|]]; [done| |].
  - unfold bind, get_self, lift, ret.
    destruct (py_getitem (cand_graphs (self w)) index); [done|].
    by destruct (py_getitem (stereo_cand_graphs (self w)) index).
  - unfold bind at 1, get_self. unfold bind at 1, on_store at 1, read.
    destruct (store w !! t) as [tr|]; [|by destruct w].
    unfold bind at 1, lift.
    destruct (cand_loop E tr) as [e|cg]; [by destruct w|].
    unfold bind at 1, on_store. simpl.
    destruct (stereo_part E t fuel (store w)) as [[sg|e| |] h1]; try done.
    simpl. unfold bind, lift, ret, set_self. simpl.
    destruct (cache (self w)); [|done].
    destruct (py_setitem (cand_graphs (self w)) _ _); simpl; [done|].
    by destruct (py_setitem (stereo_cand_graphs (self w)) _ _).
Qed.

Lemma tree_and_graph_neg E index (w : World E) :
  cache_sound (self w) ->
  - JTVAEDataset_len (self w) <= index < 0 ->
  tree_and_graph E index w
  = tree_and_graph E (index + JTVAEDataset_len (self w)) w.
Proof.
  unfold JTVAEDataset_len. intros Hs Hi. set (n := length (data (self w))) in *.
  rewrite !tree_and_graph_eq.
  rewrite <- (py_getitem_neg (data (self w)) index n) by done.
  destruct (cache (self w)) eqn:Hc; [|done].
  destruct (Hs Hc) as (Ht & Hg & _).
  rewrite <- (py_getitem_neg (trees (self w)) index n) by done.
  rewrite <- (py_getitem_neg (mol_graphs (self w)) index n) by done.
  destruct (py_getitem (trees (self w)) index) as [e|[r|]]; [done..|].
  destruct (py_getitem (data (self w)) index) as [e|smi]; [done|].
  destruct (build E (vocab (self w)) smi) as [e|tm]; [done|].
  simpl.
  rewrite <- (py_setitem_neg (trees (self w)) index n) by done.
  by rewrite <- (py_setitem_neg (mol_graphs (self w)) index n).
Qed.

Lemma tree_and_graph_data E index (w : World E) o w' :
  tree_and_graph E index w = (o, w') -> data (self w') = data (self w).
Proof.
  rewrite tree_and_graph_eq. intros H. cbv zeta in H.
  repeat case_match; by simplify_eq/=.
Qed.

Lemma candidates_neg E index fuel t (w : World E) n :
  cache_sound (self w) ->
  length (data (self w)) = n ->
  - Z.of_nat n <= index < 0 ->
  candidates E index fuel t w = candidates E (index + Z.of_nat n) fuel t w.
Proof.
  intros Hs Hn Hi. rewrite !candidates_eq.
  destruct (cache (self w)) eqn:Hc; [|done].
  destruct (Hs Hc) as (Ht & Hg & Hcg & Hsg & _).
  assert (Hlc : length (cand_graphs (self w)) = n)
    by (by rewrite Hcg, repeat_length).
  assert (Hls : length (stereo_cand_graphs (self w)) = n)
    by (by rewrite Hsg, repeat_length).
  rewrite <- (py_getitem_neg (trees (self w)) index n) by congruence.
  rewrite <- (py_getitem_neg (cand_graphs (self w)) index n) by done.
  rewrite <- (py_getitem_neg (stereo_cand_graphs (self w)) index n) by done.
  destruct (py_getitem (trees (self w)) index) as [e|[r|]]; [done..|].
  destruct (store w !! t) as [tr|]; [|done].
  destruct (cand_loop E tr) as [e|cg]; [done|]. cbv zeta.
  destruct (stereo_part E t fuel (store w)).1 as [sg|e| |]; try done.
  rewrite <- (py_setitem_neg (cand_graphs (self w)) index n) by done.
  by rewrite <- (py_setitem_neg (stereo_cand_graphs (self w)) index n).
Qed.

(** X4: on a dataset of [n] datapoints, a negative index [i >= -n] reads
    the datapoint at [i + n]: the two calls give the same outcome and the
    same world. *)
Theorem getitem_negative_index E index fuel (w : World E) :
  reachable w ->
  - JTVAEDataset_len (self w) <= index < 0 ->
  getitem E index fuel w
  = getitem E (index + JTVAEDataset_len (self w)) fuel w.
Proof.
  intros Hw Hi. apply reachable_sound in Hw.
  unfold getitem, bind, get_self, ret.
  rewrite <- tree_and_graph_neg by done.
  destruct (tree_and_graph E index w) as [[tg|e| |] w1] eqn:H1; try done.
  destruct (tree_and_graph_spec _ _ _ _ _ Hw H1) as (Hs1 & _).
  pose proof (tree_and_graph_data _ _ _ _ _ H1) as Hd.
  destruct (training (self w1)); simpl; [|done].
  unfold JTVAEDataset_len in *.
  rewrite <- (candidates_neg E index fuel tg.1 w1 (length (data (self w))));
    [done|done|by rewrite Hd|done].
Qed.

Lemma getitem_negative_index_witness :
  getitem toy (-4) 7 (toy_world true true)
  = getitem toy (-4 + 4) 7 (toy_world true true).
Proof.
  apply (getitem_negative_index toy (-4) 7 (toy_world true true)).
  - apply (reach_init (E:=toy) toy_file tt true true). apply toy_init.
  - unfold JTVAEDataset_len. simpl. lia.
Defined.

(** ** The cache and the store *)

Lemma py_setitem_getitem {A} (l : list A) i x l' :
  py_setitem l i x = inr l' -> py_getitem l' i = inr x.
Proof.
  unfold py_setitem. destruct (py_index l i) as [k|] eqn:Hk; [|done].
  intros [= <-]. apply py_getitem_inr. exists k. split.
  - rewrite <- Hk. apply py_index_length, length_insert.
  - apply list_lookup_insert_eq. by eapply py_index_lt.
Qed.

Lemma tree_and_graph_cached E index (w : World E) r g w1 :
  cache (self w) = true ->
  tree_and_graph E index w = (Ret (r, g), w1) ->
  py_getitem (trees (self w1)) index = inr (Some r)
  /\ py_getitem (mol_graphs (self w1)) index = inr g.
Proof.
  intros Hc. rewrite tree_and_graph_eq, Hc. cbv zeta.
  destruct (py_getitem (trees (self w)) index) as [e|[r0|]] eqn:Ht; [done| |].
  - destruct (py_getitem (mol_graphs (self w)) index) eqn:Hg; [done|].
    by intros [= <- <- <-].
  - destruct (py_getitem (data (self w)) index); [done|].
    destruct (build E _ _) as [e|tm]; [done|].
    destruct (py_setitem (trees (self w)) _ _) as [e|ts] eqn:Hts; [done|].
    destruct (py_setitem (mol_graphs (self w)) _ _) as [e|gs] eqn:Hgs;
      [done|].
    intros [= <- <- <-]. simpl.
    split; by eapply py_setitem_getitem.
Qed.

Lemma tree_and_graph_hit E index (w : World E) r g :
  cache (self w) = true ->
  py_getitem (trees (self w)) index = inr (Some r) ->
  py_getitem (mol_graphs (self w)) index = inr g ->
  tree_and_graph E index w = (Ret (r, g), w).
Proof. intros Hc Ht Hg. by rewrite tree_and_graph_eq, Hc, Ht, Hg. Qed.

(** X5: with a cache, an access that has returned is repeated at no cost:
    every later access to the same index returns the same datapoint (the
    same tree object, the same graph) and leaves the dataset and the store
    as they are, whatever the fuel. *)
Theorem cached_access_repeats E index fuel fuel' (w : World E) dp w' :
  reachable w ->
  cache (self w) = true ->
  getitem E index fuel w = (Ret dp, w') ->
  getitem E index fuel' w' = (Ret dp, w').
Proof.
  intros Hw Hc. apply reachable_sound in Hw.
  unfold getitem, bind, get_self, ret.
  destruct (tree_and_graph E index w) as [[[r g]|e| |] w1] eqn:H1; try done.
  destruct (tree_and_graph_spec _ _ _ _ _ Hw H1) as (Hs1 & Hc1 & Ht1 & _).
  destruct (tree_and_graph_cached _ _ _ _ _ _ Hc H1) as [Hr Hg].
  rewrite Hc in Hc1. simpl.
  destruct (training (self w1)) eqn:Htr; simpl.
  - rewrite (candidates_hit E index fuel r w1 r) by done. simpl.
    intros [= <- <-]. rewrite (tree_and_graph_hit E index w1 r g) by done.
    simpl. rewrite Htr. simpl.
    by rewrite (candidates_hit E index fuel' r w1 r).
  - intros [= <- <-]. rewrite (tree_and_graph_hit E index w1 r g) by done.
    simpl. by rewrite Htr.
Qed.

Lemma cached_access_repeats_witness :
  getitem toy 1 3 (getitem toy 1 0 (toy_world true false)).2
  = (Ret (DP2 (E:=toy) 0%nat (Some 1%nat)),
     (getitem toy 1 0 (toy_world true false)).2).
Proof.
  apply (cached_access_repeats toy 1 0 3 (toy_world true false)).
  - apply (reach_init (E:=toy) toy_file tt true false). apply toy_init.
  - reflexivity.
  - reflexivity.
Defined.

Lemma write_frame {G} r t (h : heap G) o h' :
  write r t h = (o, h') ->
  length h' = length h
  /\ forall r' : nat, r' <> r -> h' !! r' = h !! r'.
Proof.
  unfold write. destruct (h !! r); intros [= <- <-]; [|done].
  split; [apply length_insert|]. intros r' Hr'.
  by apply list_lookup_insert_ne.
Qed.

Lemma stereo_loop_frame E r fuel :
  forall k (h : heap (Graph E)) o h',
    stereo_loop E r k fuel h = (o, h') ->
    length h' = length h
    /\ forall r' : nat, r' <> r -> h' !! r' = h !! r'.
Proof.
  induction fuel as [|fuel IH]; intros k h o h'; simpl;
    [by intros [= <- <-]|].
  unfold bind at 1, read. destruct (h !! r) as [t|] eqn:Hr;
    [|by intros [= <- <-]].
  destruct (stereo_cands t !! k) as [cand|]; [|by intros [= <- <-]].
  unfold bind at 1, lift.
  destruct (bigraph E enc cand) as [e|cg]; [by intros [= <- <-]|].
  unfold bind at 1.
  destruct (write r (append_stereo (PyGraph cg) t) h) as [ow h1] eqn:Hw.
  apply write_frame in Hw as [Hl Hf].
  destruct ow as [[]|e| |]; try by intros [= <- <-].
  intros [Hl1 Hf1]%IH. split; [congruence|].
  intros r' Hr'. rewrite Hf1 by done. by apply Hf.
Qed.

Lemma stereo_part_frame E r fuel (h : heap (Graph E)) :
  length (stereo_part E r fuel h).2 = length h
  /\ forall r' : nat, r' <> r -> (stereo_part E r fuel h).2 !! r' = h !! r'.
Proof.
  destruct (stereo_part E r fuel h) as [o h'] eqn:H. simpl. revert H.
  unfold stereo_part. unfold bind at 1, read.
  destruct (h !! r) as [t|] eqn:Hr; [|by intros [= <- <-]].
  destruct (_ =? 1); [by intros [= <- <-]|]. unfold bind at 1.
  destruct ((if str_in (smiles3D t) (stereo_cands t) then ret ()
             else write r (append_stereo (PyStr (smiles3D t)) t)) h)
    as [ow h1] eqn:Hw.
  assert (H1 : length h1 = length h
               /\ forall r' : nat, r' <> r -> h1 !! r' = h !! r').
  { destruct (str_in _ _); [by injection Hw as <- <-|].
    by eapply write_frame. }
  destruct H1 as [Hl Hf].
  destruct ow as [[]|e| |]; try by intros [= <- <-].
  unfold bind.
  destruct (stereo_loop E r 0 fuel h1) as [ol h2] eqn:Hloop.
  apply stereo_loop_frame in Hloop as [Hl2 Hf2].
  assert (length h2 = length h
          /\ forall r' : nat, r' <> r -> h2 !! r' = h !! r') as Hfin.
  { split; [congruence|]. intros r' Hr'. rewrite Hf2 by done. by apply Hf. }
  destruct ol as [[]|e| |]; by intros [= <- <-].
Qed.

(** X6: an access never touches the trees that were in the store before
    it: the store it leaves starts with the old store, holds at most one
    tree more, and without a cache the dataset object itself is left as it
    was. *)
Theorem getitem_keeps_old_trees E index fuel (w : World E) :
  reachable w ->
  take (length (store w)) (store (getitem E index fuel w).2) = store w
  /\ (length (store (getitem E index fuel w).2) <= S (length (store w)))%nat
  /\ (cache (self w) = false -> self (getitem E index fuel w).2 = self w).
Proof.
  intros Hw. apply reachable_sound in Hw.
  assert (Hgrow : forall t : MolTree (Graph E),
    take (length (store w)) (store w ++ [t]) = store w
    /\ (length (store w ++ [t]) <= S (length (store w)))%nat).
  { intros t. rewrite take_app_length, length_app. simpl. split; [done|lia]. }
  assert (Hsame : take (length (store w)) (store w) = store w
                  /\ (length (store w) <= S (length (store w)))%nat).
  { rewrite firstn_all. split; [done|lia]. }
  unfold getitem, bind, get_self, ret.
  destruct (tree_and_graph E index w) as [o1 w1] eqn:H1.
  destruct (tree_and_graph_spec _ _ _ _ _ Hw H1) as (Hs1 & Hc1 & Ht1 & Hr1).
  rewrite tree_and_graph_eq in H1. cbv zeta in H1.
  destruct (cache (self w)) eqn:Hc.
  - (* with a cache the candidates are read back *)
    assert (Hw1 : (store w1 = store w \/ exists t, store w1 = store w ++ [t])).
    { repeat case_match; simplify_eq/=; eauto. }
    assert (Hfin : take (length (store w)) (store w1) = store w
                   /\ (length (store w1) <= S (length (store w)))%nat).
    { destruct Hw1 as [->|[t ->]]; [done|apply Hgrow]. }
    destruct o1 as [[r g]|e| |]; simpl; try (split_and!; [tauto..|done]).
    destruct (training (self w1)); simpl; [|split_and!; [tauto..|done]].
    rewrite (candidates_hit E index fuel r w1 r); simpl;
      [split_and!; [tauto..|done]|done|congruence|by apply (Hr1 r g)].
  - (* without one the only tree written is the new one *)
    destruct (py_getitem (data (self w)) index) as [e|smi];
      [injection H1 as <- <-; simpl; split_and!; [tauto..|done]|].
    destruct (build E (vocab (self w)) smi) as [e|[t g]];
      [injection H1 as <- <-; simpl; split_and!; [tauto..|done]|].
    injection H1 as <- <-. simpl.
    destruct (training (self w)); simpl;
      [|split_and!; [apply Hgrow..|done]].
    rewrite candidates_eq. simpl. rewrite Hc.
    rewrite lookup_app_r, Nat.sub_diag by done. simpl.
    destruct (cand_loop E t) as [e|cg]; simpl;
      [split_and!; [apply Hgrow..|done]|].
    destruct (stereo_part_frame E (length (store w)) fuel (store w ++ [t]))
      as [Hl Hf].
    assert (Hfin :
      take (length (store w))
           (stereo_part E (length (store w)) fuel (store w ++ [t])).2 = store w
      /\ (length (stereo_part E (length (store w)) fuel (store w ++ [t])).2
          <= S (length (store w)))%nat).
    { split; [|rewrite Hl, length_app; simpl; lia].
      apply list_eq. intros i. destruct (decide (i < length (store w))%nat).
      - rewrite lookup_take_lt, Hf, lookup_app_l by lia. done.
      - rewrite lookup_take_ge by lia. symmetry. apply lookup_ge_None. lia. }
    destruct (stereo_part E _ fuel _).1; simpl; split_and!; tauto || done.
Qed.

Lemma getitem_keeps_old_trees_witness :
  take 1 (store (getitem toy 1 9
                   (getitem toy 0 0 (toy_world false true)).2).2)
  = store (getitem toy 0 0 (toy_world false true)).2.
Proof.
  apply (getitem_keeps_old_trees toy 1 9
           (getitem toy 0 0 (toy_world false true)).2).
  apply reach_getitem.
  apply (reach_init (E:=toy) toy_file tt false true). apply toy_init.
Defined.

(** ** The tree and the graphs of a datapoint *)

Lemma stereo_part_single E r fuel (h : heap (Graph E)) t :
  h !! r = Some t ->
  length (stereo_cands t) = 1%nat ->
  stereo_part E r fuel h = (Ret [], h).
Proof.
  intros Hr Hl. unfold stereo_part, bind, read. by rewrite Hr, Hl.
Qed.

(** X7: without a cache and in training mode, a molecule with exactly one
    stereo candidate is read whatever the fuel: the call returns the new
    tree, its graph, the candidate graphs and an empty list of stereo
    candidate graphs, or raises what the featurizer of the candidates
    raises; the tree it puts in the store is the tree that was built. *)
Theorem getitem_single_stereo_candidate E index fuel (w : World E) smi t g :
  cache (self w) = false ->
  training (self w) = true ->
  py_getitem (data (self w)) index = inr smi ->
  build E (vocab (self w)) smi = inr (t, g) ->
  length (stereo_cands t) = 1%nat ->
  getitem E index fuel w
  = (match cand_loop E t with
     | inl e => Raise e
     | inr cg => Ret (DP4 (length (store w)) (Some g) (Some cg) (Some []))
     end,
     {| self := self w; store := store w ++ [t] |}).
Proof.
  intros Hc Htr Hsmi Hb Hl. unfold getitem, bind, get_self, ret.
  rewrite (tree_and_graph_no_cache E index w smi (t, g)) by done.
  simpl. rewrite Htr. simpl. rewrite candidates_eq. simpl. rewrite Hc.
  rewrite lookup_app_r, Nat.sub_diag by done. simpl.
  destruct (cand_loop E t) as [e|cg]; [done|].
  rewrite (stereo_part_single E _ fuel _ t); [done| |done].
  by rewrite lookup_app_r, Nat.sub_diag.
Qed.

Lemma getitem_single_stereo_candidate_witness :
  getitem toy 0 0 (toy_world false true)
  = (Ret (DP4 (E:=toy) 0%nat (Some 1%nat) (Some [2; 3]%nat) (Some [])),
     {| self := toy_dataset false true; store := [toy_tree ["CCO"] "CCO"] |}).
Proof.
  apply (getitem_single_stereo_candidate toy 0 0 (toy_world false true)
           (lit "CCO") (toy_tree ["CCO"] "CCO") 1%nat); reflexivity.
Defined.

Lemma add_label_label nd : label (add_label nd) ∈ cands (add_label nd).
Proof.
  unfold add_label. case_bool_decide; simpl; [done|].
  apply elem_of_app. right. left.
Qed.

Lemma add_label_aligned nd : aligned nd -> aligned (add_label nd).
Proof.
  unfold add_label, aligned. case_bool_decide; simpl; [done|].
  rewrite !length_app. simpl. lia.
Qed.

Lemma build_inv E v smi t g :
  build E v smi = inr (t, g) ->
  exists t0 t1 t2,
    MolTree_new E smi = inr t0 /\ recover E t0 = inr t1
    /\ assemble E t1 = inr t2
    /\ nodes_dict t = map (fun kn => (kn.1, add_label kn.2)) (nodes_dict t2)
    /\ stereo_cands t = stereo_cands t2
    /\ smiles3D t = smiles3D t2.
Proof.
  unfold build. intros H.
  destruct (MolTree_new E smi) as [e|t0]; simpl in H; [done|].
  destruct (recover E t0) as [e|t1] eqn:H1; simpl in H; [done|].
  destruct (assemble E t1) as [e|t2] eqn:H2; simpl in H; [done|].
  destruct (emap _ _) as [e|wid]; simpl in H; [done|].
  destruct (set_wid E _ _) as [e|g']; simpl in H; [done|].
  destruct (get_mol E smi) as [e|mol]; simpl in H; [done|].
  destruct (bigraph E enc _) as [e|mg]; simpl in H; [done|].
  injection H as <- <-. by exists t0, t1, t2.
Qed.

(** X8: in a tree that [__getitem__] has built, the label of every node is
    among the candidates of the node. *)
Theorem build_labels_among_candidates E v smi t g :
  build E v smi = inr (t, g) ->
  Forall (fun kn => label kn.2 ∈ cands kn.2) (nodes_dict t).
Proof.
  intros (t0 & t1 & t2 & _ & _ & _ & -> & _)%build_inv.
  apply Forall_fmap, Forall_true. intros kn. simpl. apply add_label_label.
Qed.

Lemma build_labels_among_candidates_witness :
  Forall (fun kn => label kn.2 ∈ cands kn.2)
         (nodes_dict (toy_tree ["CCO"] "CCO")).
Proof.
  apply (build_labels_among_candidates toy tt (lit "CCO") _ 1%nat).
  reflexivity.
Defined.

Lemma emap_length {A B} (f : A -> exn + B) l l' :
  emap f l = inr l' -> length l' = length l.
Proof.
  revert l'. induction l as [|x l IH]; intros l'; simpl.
  - by intros [= <-].
  - destruct (f x); simpl; [done|].
    destruct (emap f l); simpl; [done|]. intros [= <-]. simpl.
    f_equal. by apply IH.
Qed.

Lemma cand_loop_length E (t : MolTree (Graph E)) cg :
  cand_loop E t = inr cg -> length cg = cand_count t.
Proof.
  unfold cand_loop, cand_count. generalize (nodes_dict t) as d. clear t.
  intros d. revert cg. induction d as [|kn d IH]; intros cg; simpl.
  - by intros [= <-].
  - destruct (skipped kn.2) eqn:Hs; simpl.
    + destruct (emap _ d) as [e|per] eqn:Hd; simpl; [done|].
      intros [= <-]. simpl. apply IH. simpl. done.
    + destruct (emap (fun cand => _) (cand_mols kn.2)) as [e|gs] eqn:Hg;
        simpl; [done|].
      destruct (emap _ d) as [e|per] eqn:Hd; simpl; [done|].
      intros [= <-]. simpl. rewrite length_app.
      rewrite (emap_length _ _ _ Hg). f_equal. by apply IH.
Qed.

(** X9: the candidate graphs of a datapoint are as many as the entries that
    the collator adds to [cand_batch_idx] for its tree, provided the tree
    came out of [assemble] with as many candidate molecules as candidates
    in every node: one graph per candidate molecule of every node that is
    neither a leaf nor single-candidate, and the label joins both lists
    together. *)
Theorem cand_graphs_match_entries E v smi t g t0 t1 t2 cg :
  MolTree_new E smi = inr t0 ->
  recover E t0 = inr t1 ->
  assemble E t1 = inr t2 ->
  Forall (fun kn => aligned kn.2) (nodes_dict t2) ->
  build E v smi = inr (t, g) ->
  cand_loop E t = inr cg ->
  length cg = cand_count t /\ cand_count t = cand_entries t.
Proof.
  intros H0 H1 H2 Hal Hb Hcg. split; [by apply cand_loop_length|].
  apply build_inv in Hb as (t0' & t1' & t2' & H0' & H1' & H2' & Hn & _).
  rewrite H0 in H0'. injection H0' as <-.
  rewrite H1 in H1'. injection H1' as <-.
  rewrite H2 in H2'. injection H2' as <-.
  unfold cand_count, cand_entries. rewrite Hn.
  rewrite !map_map. f_equal. apply Forall_fmap_ext_1.
  eapply Forall_impl; [exact Hal|]. intros kn Hk. simpl.
  pose proof (add_label_aligned _ Hk) as Hk'. unfold aligned in Hk'.
  by destruct (skipped (add_label kn.2)).
Qed.

Lemma cand_graphs_match_entries_witness :
  length [2; 3]%nat = cand_count (toy_tree ["CCO"] "CCO")
  /\ cand_count (toy_tree ["CCO"] "CCO") = cand_entries (toy_tree ["CCO"] "CCO").
Proof.
  apply (cand_graphs_match_entries toy tt (lit "CCO")
           (toy_tree ["CCO"] "CCO") 1%nat
           (toy_tree ["CCO"] "CCO") (toy_tree ["CCO"] "CCO")
           (toy_tree ["CCO"] "CCO") [2; 3]%nat); try reflexivity.
  repeat constructor.
Defined.

(** ** The shape of a datapoint and the slots of the cache *)

(** X19: a datapoint that [__getitem__] returns is a 4-tuple exactly when
    the dataset is in training mode, and a pair otherwise. *)
Theorem getitem_arity_follows_mode E index fuel (w : World E) dp w' :
  reachable w ->
  getitem E index fuel w = (Ret dp, w') ->
  is_DP4 E dp = training (self w).
Proof.
  intros Hw. apply reachable_sound in Hw.
  unfold getitem, bind, get_self, ret.
  destruct (tree_and_graph E index w) as [[tg|e| |] w1] eqn:H1; try done.
  destruct (tree_and_graph_spec _ _ _ _ _ Hw H1) as (_ & _ & <- & _).
  destruct (training (self w1)); simpl; [|by intros [= <- _]].
  destruct (candidates E index fuel tg.1 w1) as [[cs|e| |] w2]; try done.
  by intros [= <- _].
Qed.

Lemma getitem_arity_follows_mode_witness :
  is_DP4 toy (DP2 (E:=toy) 0%nat (Some 1%nat)) = false
  /\ is_DP4 toy (DP4 (E:=toy) 0%nat (Some 1%nat) None None) = true.
Proof.
  split.
  - apply (getitem_arity_follows_mode toy 1 0 (toy_world false false)
             (DP2 (E:=toy) 0%nat (Some 1%nat))
             (getitem toy 1 0 (toy_world false false)).2).
    + apply (reach_init (E:=toy) toy_file tt false false). apply toy_init.
    + reflexivity.
  - apply (getitem_arity_follows_mode toy 0 0 (toy_world true true)
             (DP4 (E:=toy) 0%nat (Some 1%nat) None None)
             (getitem toy 0 0 (toy_world true true)).2).
    + apply (reach_init (E:=toy) toy_file tt true true). apply toy_init.
    + reflexivity.
Defined.

Lemma tree_and_graph_slots E index (w : World E) o w1 :
  cache_sound (self w) ->
  tree_and_graph E index w = (o, w1) ->
  data (self w1) = data (self w)
  /\ cache (self w1) = cache (self w)
  /\ training (self w1) = training (self w)
  /\ cand_graphs (self w1) = cand_graphs (self w)
  /\ stereo_cand_graphs (self w1) = stereo_cand_graphs (self w)
  /\ forall k : nat,
       py_index (data (self w)) index <> Some k ->
       trees (self w1) !! k = trees (self w) !! k
       /\ mol_graphs (self w1) !! k = mol_graphs (self w) !! k.
Proof.
  intros Hs. rewrite tree_and_graph_eq. cbv zeta.
  destruct (cache (self w)) eqn:Hc.
  2:{ intros H. repeat case_match; simplify_eq/=; split_and!; try done.
      all: by intros. }
  destruct (Hs Hc) as (Ht & Hg & _).
  destruct (py_getitem (trees (self w)) index) as [e|[r|]];
    [by intros [= <- <-]| |].
  { destruct (py_getitem (mol_graphs (self w)) index); by intros [= <- <-]. }
  destruct (py_getitem (data (self w)) index) as [e|smi];
    [by intros [= <- <-]|].
  destruct (build E (vocab (self w)) smi) as [e|tm]; [by intros [= <- <-]|].
  unfold py_setitem.
  rewrite (py_index_length (trees (self w)) (data (self w))) by done.
  rewrite (py_index_length (mol_graphs (self w)) (data (self w))) by done.
  destruct (py_index (data (self w)) index) as [p|]; [|by intros [= <- <-]].
  intros [= <- <-]. simpl. split_and!; try done.
  intros k Hk. rewrite !list_lookup_insert_ne by congruence. done.
Qed.

(** X20: an access leaves the datapoints, the two mode flags and the two
    lists of cached candidate graphs of the dataset as they were, and of
    the lists of cached trees and molecular graphs it writes at most the
    slot of its index. *)
Theorem getitem_writes_one_slot E index fuel (w : World E) :
  reachable w ->
  data (self (getitem E index fuel w).2) = data (self w)
  /\ cache (self (getitem E index fuel w).2) = cache (self w)
  /\ training (self (getitem E index fuel w).2) = training (self w)
  /\ cand_graphs (self (getitem E index fuel w).2) = cand_graphs (self w)
  /\ stereo_cand_graphs (self (getitem E index fuel w).2)
     = stereo_cand_graphs (self w)
  /\ forall k : nat,
       py_index (data (self w)) index <> Some k ->
       trees (self (getitem E index fuel w).2) !! k = trees (self w) !! k
       /\ mol_graphs (self (getitem E index fuel w).2) !! k
          = mol_graphs (self w) !! k.
Proof.
  intros Hw. apply reachable_sound in Hw.
  unfold getitem, bind, get_self, ret.
  destruct (tree_and_graph E index w) as [o1 w1] eqn:H1.
  destruct (tree_and_graph_spec _ _ _ _ _ Hw H1) as (Hs1 & Hc1 & Ht1 & Hr1).
  pose proof (tree_and_graph_slots _ _ _ _ _ Hw H1) as Hslots.
  destruct o1 as [[r g]|e| |]; simpl; try exact Hslots.
  destruct (negb (training (self w1))); simpl; [exact Hslots|].
  destruct (cache (self w)) eqn:Hc.
  - rewrite (candidates_hit E index fuel r w1 r); simpl;
      [done|done|congruence|by apply (Hr1 r g)].
  - pose proof (candidates_no_cache E index fuel r w1 Hc1) as H2.
    destruct (candidates E index fuel r w1) as [[cs|e| |] w2];
      simpl in *; rewrite H2; exact Hslots.
Qed.

Lemma getitem_writes_one_slot_witness :
  trees (self (getitem toy 2 0 (toy_world true false)).2) !! 0%nat
  = trees (toy_dataset true false) !! 0%nat.
Proof.
  apply (getitem_writes_one_slot toy 2 0 (toy_world true false)).
  - apply (reach_init (E:=toy) toy_file tt true false). apply toy_init.
  - vm_compute. discriminate.
Defined.

(** ** Batches that the collator refuses *)

Lemma reads_only_collate_eval E data : reads_only (collate_eval E data).
Proof.
  unfold collate_eval. apply reads_only_bind; [apply reads_only_lift|].
  intros cols. apply reads_only_bind; [apply reads_only_tree_graphs|].
  intros gs. apply reads_only_bind; [apply reads_only_lift|].
  intros btg. apply reads_only_bind; [apply reads_only_lift|].
  intros bmg. apply reads_only_ret.
Qed.

(** X10: a collation in evaluation mode writes nothing into the trees,
    whether it returns or raises; when it returns, it returns the trees of
    the datapoints in the order of the batch, and never a training batch. *)
Theorem eval_collation_reads_only E data (h : heap (Graph E)) o h' :
  JTVAECollator_call E false data h = (o, h') ->
  h' = h
  /\ forall out, o = Ret out ->
       exists btg bmg, out = Eval (map (dp_tree E) data) btg bmg.
Proof.
  simpl. intros H. split.
  { by eapply reads_only_eq; [apply reads_only_collate_eval|]. }
  intros out ->. unfold collate_eval in H.
  apply bind_Ret_inv in H as (cols & s1 & [Hcols ->]%lift_Ret_inv & H).
  apply bind_Ret_inv in H as (gs & s2 & _ & H).
  apply bind_Ret_inv in H as (btg & s3 & _ & H).
  apply bind_Ret_inv in H as (bmg & s4 & _ & H).
  injection H as <- _. exists btg, bmg. f_equal.
  unfold unpack2 in Hcols. destruct data as [|dp data]; [done|].
  destruct (forallb _ _); [done|]. injection Hcols as <-.
  simpl. f_equal. by rewrite map_map.
Qed.

Lemma eval_collation_reads_only_witness :
  exists out,
    JTVAECollator_call toy false
      [DP2 (E:=toy) 1%nat (Some 1%nat);
       DP4 (E:=toy) 0%nat (Some 1%nat) None None]
      toy_heap = (Ret out, toy_heap)
    /\ exists btg bmg, out = Eval (E:=toy) [1; 0]%nat btg bmg.
Proof.
  exists (Eval (E:=toy) [1; 0]%nat 4%nat 2%nat). split; [reflexivity|].
  apply (eval_collation_reads_only toy
           [DP2 (E:=toy) 1%nat (Some 1%nat);
            DP4 (E:=toy) 0%nat (Some 1%nat) None None]
           toy_heap (Ret (Eval (E:=toy) [1; 0]%nat 4%nat 2%nat)) toy_heap);
    reflexivity.
Defined.

Lemma unpack4_pair E data :
  data = [] \/ Exists (fun dp => is_DP4 E dp = false) data ->
  unpack4 E data = inl ValueError.
Proof.
  intros [->|H]; [done|]. unfold unpack4.
  destruct data as [|dp0 data0]; [by inversion H|].
  generalize dependent (dp0 :: data0). clear. intros l H.
  induction l as [|dp l IH]; [by inversion H|]. simpl.
  destruct dp as [r g|r g c s]; simpl; [done|].
  rewrite IH; [done|]. by inversion H.
Qed.

(** X11: the collator checks the shape of its batch before anything else.
    In training mode an empty batch, or a batch that holds a pair (a
    datapoint of the evaluation mode), raises [ValueError]; in evaluation
    mode an empty batch, or a batch of 4-tuples only, raises [ValueError];
    in both cases no tree has been written. *)
Theorem collator_rejects_wrong_arity E data (h : heap (Graph E)) :
  (data = [] \/ Exists (fun dp => is_DP4 E dp = false) data ->
   JTVAECollator_call E true data h = (Raise ValueError, h))
  /\ (data = [] \/ forallb (is_DP4 E) data = true ->
      JTVAECollator_call E false data h = (Raise ValueError, h)).
Proof.
  split; intros H; simpl.
  - unfold collate_train, bind, lift. by rewrite unpack4_pair.
  - unfold collate_eval, bind, lift, unpack2.
    destruct H as [->|H]; [done|]. rewrite H. by destruct data.
Qed.

Lemma collator_rejects_wrong_arity_witness :
  JTVAECollator_call toy true
    [DP4 (E:=toy) 0%nat None None None; DP2 (E:=toy) 1%nat None] toy_heap
  = (Raise ValueError, toy_heap)
  /\ JTVAECollator_call toy false toy_data toy_heap
     = (Raise ValueError, toy_heap).
Proof.
  split.
  - apply (collator_rejects_wrong_arity toy). right.
    apply Exists_cons_tl, Exists_cons_hd. reflexivity.
  - apply (collator_rejects_wrong_arity toy). right. reflexivity.
Defined.

Lemma emap_elem {A B} (f : A -> exn + B) l l' x :
  emap f l = inr l' -> x ∈ l -> exists y, f x = inr y /\ y ∈ l'.
Proof.
  revert l'. induction l as [|a l IH]; intros l' H Hx; [by inversion Hx|].
  simpl in H. destruct (f a) as [e|b] eqn:Ha; simpl in H; [done|].
  destruct (emap f l) as [e|bs]; simpl in H; [done|]. injection H as <-.
  apply elem_of_cons in Hx as [->|Hx].
  - exists b. split; [done|left].
  - destruct (IH bs eq_refl Hx) as (y & Hy & Hin). exists y.
    split; [done|by right].
Qed.

Lemma chain_from_iterable_None {A} (l : list (option (list A))) :
  None ∈ l -> exists e, chain_from_iterable l = inl e.
Proof.
  intros Hin. unfold chain_from_iterable.
  destruct (emap _ l) as [e|ls] eqn:Hl; simpl; [eauto|].
  by destruct (emap_elem _ _ _ _ Hl Hin) as (y & Hy & _).
Qed.

Lemma train_collation_needs_candidates E data (h : heap (Graph E)) r g :
  DP4 r g None None ∈ data ->
  returned (JTVAECollator_call E true data h).1 = false.
Proof.
  intros Hin. simpl.
  destruct (collate_train E data h) as [[out|e| |] h'] eqn:H; try done.
  apply collate_train_inv in H
    as (cols & gs & btg & bmg & tot & h1 & a & cgs & bcg & sgs & bsg & st
        & Hcols & _ & _ & _ & _ & _ & Hcgs & _).
  unfold unpack4 in Hcols. destruct data as [|dp0 data0]; [done|].
  destruct (emap_elem _ _ _ _ Hcols Hin) as (c & Hc & Hcin).
  injection Hc as <-.
  destruct (chain_from_iterable_None (map (fun c => c.1.2) cols)) as [e He].
  { apply list_elem_of_fmap. by exists (r, g, None, None). }
  congruence.
Qed.

(** X12: the datapoints of a training dataset with a cache cannot be
    collated: whatever else the batch holds and whatever the store and the
    libraries do, a training-mode collation of a batch with such a
    datapoint does not return. *)
Theorem cached_datapoints_not_collated E index fuel (w : World E) dp w'
    data (h : heap (Graph E)) :
  reachable w ->
  cache (self w) = true ->
  training (self w) = true ->
  getitem E index fuel w = (Ret dp, w') ->
  dp ∈ data ->
  returned (JTVAECollator_call E true data h).1 = false.
Proof.
  intros Hw Hc Htr Hg Hin.
  destruct (cached_training_never_candidates E index fuel w dp w' Hw Hc Htr Hg)
    as (r & g & ->).
  by eapply train_collation_needs_candidates.
Qed.

Lemma cached_datapoints_not_collated_witness :
  returned (JTVAECollator_call toy true
              [DP4 (E:=toy) 0%nat (Some 1%nat) None None]
              (store (getitem toy 0 0 (toy_world true true)).2)).1 = false.
Proof.
  apply (cached_datapoints_not_collated toy 0 0 (toy_world true true)
           (DP4 (E:=toy) 0%nat (Some 1%nat) None None)
           (getitem toy 0 0 (toy_world true true)).2).
  - apply (reach_init (E:=toy) toy_file tt true true). apply toy_init.
  - reflexivity.
  - reflexivity.
  - reflexivity.
  - left.
Defined.

(** ** What a training batch holds *)

Lemma bond_step_edges E btg t a ib a' :
  Forall (tree_edge E btg) (l_source_edges a) ->
  bond_step E btg t a ib = inr a' ->
  Forall (tree_edge E btg) (l_source_edges a').
Proof.
  unfold bond_step. intros Ha H.
  destruct (bid E t _) as [e|x] eqn:Hx; simpl in H; [done|].
  destruct (bid E t (GetAtomMapNum (GetEndAtom ib.2))) as [e|y] eqn:Hy;
    simpl in H; [done|].
  destruct ((0 <=? x) && (0 <=? y) && negb (x =? y)) eqn:Hc;
    [|by injection H as <-].
  apply andb_true_iff in Hc as [[Hx0 Hy0]%andb_true_iff Hne].
  apply Z.leb_le in Hx0, Hy0. apply negb_true_iff, Z.eqb_neq in Hne.
  destruct (has_edges_between E btg x y) as [e|[|]] eqn:Hf; simpl in H;
    [done| |].
  - injection H as <-. simpl. apply Forall_app. split; [done|].
    by repeat constructor.
  - destruct (has_edges_between E btg y x) as [e|[|]] eqn:Hb; simpl in H;
      [done| |by injection H as <-].
    injection H as <-. simpl. apply Forall_app. split; [done|].
    repeat constructor; simpl; done.
Qed.

Lemma tree_messages_edges E btg rs (h : heap (Graph E)) a h' :
  tree_messages E btg rs h = (Ret a, h') ->
  Forall (tree_edge E btg) (l_source_edges a).
Proof.
  unfold tree_messages.
  apply (fold_m_inv (fun a => Forall (tree_edge E btg) (l_source_edges a)));
    [|constructor].
  intros b it s1 b' s2 Hb. unfold tree_step.
  intros (t & s3 & _ & [H _]%lift_Ret_inv)%bind_Ret_inv.
  eapply (efold_inv (fun a => Forall (tree_edge E btg) (l_source_edges a)));
    [| |exact H]; [|exact Hb].
  clear. intros b kn b' Hb. unfold node_step.
  destruct (skipped kn.2); [by intros [= <-]|].
  destruct (efold _ _ b) as [e|b1] eqn:H1; simpl; [done|].
  intros [= <-]. simpl.
  eapply (efold_inv (fun a => Forall (tree_edge E btg) (l_source_edges a)));
    [| |exact H1]; [|exact Hb].
  clear. intros b mol b' Hb. unfold mol_step.
  destruct (efold _ _ b) as [e|b1] eqn:H1; simpl; [done|].
  intros [= <-]. simpl.
  eapply (efold_inv (fun a => Forall (tree_edge E btg) (l_source_edges a)));
    [| |exact H1]; [|exact Hb].
  intros ? ? ? ?. by apply bond_step_edges.
Qed.

(** X13: every row of [tree_mess_source_edges] is a pair of two different
    node numbers, neither negative, that the batched tree graph reports as
    joined by an edge in that direction. *)
Theorem source_edges_are_tree_edges E data (h : heap (Graph E)) b h' :
  JTVAECollator_call E true data h = (Ret (Train b), h') ->
  exists src,
    tree_mess_source_edges b = source_tensor src
    /\ rows (tree_mess_source_edges b) = length src
    /\ Forall (tree_edge E (batch_tree_graphs b)) src.
Proof.
  simpl.
  intros (cols & gs & btg & bmg & tot & h1 & a & cgs & bcg & sgs & bsg & st
          & _ & _ & _ & _ & _ & Ha & _ & _ & _ & _ & _ & [= ->])%collate_train_inv.
  exists (l_source_edges a). simpl. split_and!; [done| |].
  - unfold source_tensor. by destruct (l_source_edges a).
  - by eapply tree_messages_edges.
Qed.

Lemma source_edges_are_tree_edges_witness :
  exists b h' src,
    JTVAECollator_call toy true toy_data toy_heap = (Ret (Train b), h')
    /\ tree_mess_source_edges b = source_tensor src
    /\ Forall (tree_edge toy (batch_tree_graphs b)) src.
Proof.
  assert (Hrun : exists b h',
    JTVAECollator_call toy true toy_data toy_heap = (Ret (Train b), h')).
  { eexists _, _. vm_compute. reflexivity. }
  destruct Hrun as (b & h' & Hrun).
  destruct (source_edges_are_tree_edges toy toy_data toy_heap b h' Hrun)
    as (src & Hsrc & _ & Hedges).
  exists b, h', src. split; [exact Hrun|]. split; [exact Hsrc|exact Hedges].
Defined.

Lemma index_tensor_data l :
  t_data (index_tensor l) = l /\ t_shape (index_tensor l) = [length l]
  /\ t_dtype (index_tensor l) = int64.
Proof. unfold index_tensor. by destruct l. Qed.

Lemma index_of_range {G} s (l : list (pyobj G)) pos :
  index_of s l = inr pos -> 0 <= pos < Z.of_nat (length l).
Proof.
  revert pos. induction l as [|o l IH]; intros pos; simpl; [done|].
  destruct (is_str s o); [intros [= <-]; lia|].
  destruct (index_of s l) as [e|k]; simpl; [done|].
  intros [= <-]. specialize (IH k eq_refl). lia.
Qed.

Lemma enumerate_range {A} (l : list A) :
  Forall (fun it => 0 <= it.1 < Z.of_nat (length l)) (enumerate l).
Proof.
  unfold enumerate. apply Forall_forall. intros it Hin.
  apply list_elem_of_lookup in Hin as (k & Hk).
  rewrite list_lookup_imap in Hk.
  destruct (l !! k) as [x|] eqn:Hl; simpl in Hk; [|done].
  injection Hk as <-. simpl. apply lookup_lt_Some in Hl. lia.
Qed.

(** The sum of the sizes that the labels record. *)
Lemma stereo_step_labels E n st it (h : heap (Graph E)) st' h' :
  0 <= it.1 < n ->
  Forall (fun i => 0 <= i < n) st.1 ->
  Forall (fun p => 0 <= p.1 < p.2) st.2 ->
  Z.of_nat (length st.1) = foldr (fun p s => p.2 + s) 0 st.2 ->
  stereo_step E st it h = (Ret st', h') ->
  Forall (fun i => 0 <= i < n) st'.1
  /\ Forall (fun p => 0 <= p.1 < p.2) st'.2
  /\ Z.of_nat (length st'.1) = foldr (fun p s => p.2 + s) 0 st'.2.
Proof.
  intros Hit H1 H2 H3. unfold stereo_step.
  intros (t & s1 & _ & H)%bind_Ret_inv.
  destruct (_ =? 1); [by injection H as <- _|].
  apply bind_Ret_inv in H as ([] & s2 & _ & H).
  apply bind_Ret_inv in H as (t2 & s3 & _ & H).
  apply bind_Ret_inv in H as (pos & s4 & [Hpos%index_of_range _]%lift_Ret_inv & H).
  injection H as <- _. simpl. split_and!.
  - apply Forall_app. split; [done|].
    apply Forall_forall. intros i Hi%list_elem_of_In%repeat_spec. by subst.
  - apply Forall_app. split; [done|]. apply Forall_singleton. simpl. lia.
  - rewrite length_app, repeat_length, foldr_app. simpl.
    rewrite Nat2Z.inj_add, H3.
    generalize (Z.of_nat (length (stereo_cands t2))) as m.
    generalize (st.2). clear. intros l m.
    induction l as [|p l IH]; simpl; lia.
Qed.

(** X14: the stereo labels and the stereo index of a training batch agree.
    Each label [(pos, n)] has [0 <= pos < n]; the index tensor is a long
    tensor of one dimension whose length is the sum of the [n]; and each of
    its entries is a position of the batch. *)
Theorem stereo_labels_consistent E data (h : heap (Graph E)) b h' :
  JTVAECollator_call E true data h = (Ret (Train b), h') ->
  Forall (fun p => 0 <= p.1 < p.2) (stereo_cand_labels b)
  /\ t_dtype (stereo_cand_batch_idx b) = int64
  /\ t_shape (stereo_cand_batch_idx b)
     = [length (t_data (stereo_cand_batch_idx b))]
  /\ Z.of_nat (length (t_data (stereo_cand_batch_idx b)))
     = foldr (fun p s => p.2 + s) 0 (stereo_cand_labels b)
  /\ Forall (fun i => 0 <= i < Z.of_nat (length data))
            (t_data (stereo_cand_batch_idx b)).
Proof.
  simpl.
  intros (cols & gs & btg & bmg & tot & h1 & a & cgs & bcg & sgs & bsg & st
          & Hcols & _ & _ & _ & _ & _ & _ & _ & _ & _ & Hst & [= ->])%collate_train_inv.
  simpl. destruct (index_tensor_data st.1) as (-> & -> & ->).
  rewrite (unpack4_trees E data cols Hcols) in Hst.
  assert (Hlen : length (map (dp_tree E) data) = length data)
    by apply length_map.
  pose proof (enumerate_range (map (dp_tree E) data)) as Hits.
  rewrite Hlen in Hits. clear Hlen Hcols.
  assert (Hgoal :
    Forall (fun i => 0 <= i < Z.of_nat (length data)) st.1
    /\ Forall (fun p => 0 <= p.1 < p.2) st.2
    /\ Z.of_nat (length st.1) = foldr (fun p s => p.2 + s) 0 st.2);
    [|by destruct Hgoal as (? & ? & ?)].
  revert Hst Hits.
  generalize (enumerate (map (dp_tree E) data)) as its.
  assert (H0 :
    Forall (fun i => 0 <= i < Z.of_nat (length data)) (([], []) : list Z * list (Z * Z)).1
    /\ Forall (fun p : Z * Z => 0 <= p.1 < p.2) (([], []) : list Z * list (Z * Z)).2
    /\ Z.of_nat (length (([], []) : list Z * list (Z * Z)).1)
       = foldr (fun p s => p.2 + s) 0 (([], []) : list Z * list (Z * Z)).2)
    by (simpl; split_and!; done || constructor).
  revert H0. generalize (([], []) : list Z * list (Z * Z)) as st0.
  intros st0 H0 its. revert st0 h1 H0.
  induction its as [|it its IH]; intros st0 h1 H0; simpl.
  - by intros [= <- _] _.
  - intros (st1 & h2 & Hstep & Hrest)%bind_Ret_inv Hits.
    apply Forall_cons in Hits as [Hit Hits].
    destruct H0 as (Ha & Hb & Hc).
    eapply (IH st1 h2); [|exact Hrest|exact Hits].
    by eapply stereo_step_labels.
Qed.

Lemma stereo_labels_consistent_witness :
  exists b h',
    JTVAECollator_call toy true toy_data toy_heap = (Ret (Train b), h')
    /\ stereo_cand_labels b = [(2, 3)]
    /\ t_data (stereo_cand_batch_idx b) = [1; 1; 1]
    /\ Forall (fun p => 0 <= p.1 < p.2) (stereo_cand_labels b).
Proof.
  eexists _, _. split; [vm_compute; reflexivity|].
  split; [reflexivity|]. split; [reflexivity|].
  eapply (stereo_labels_consistent toy toy_data toy_heap).
  vm_compute. reflexivity.
Defined.

(** ** The candidate index and the node numbers of a batch *)

Lemma fold_m_state_inv {S A B} (Q : S -> Prop) (f : B -> A -> M S B) l :
  (forall b x s1 o1 s2, Q s1 -> f b x s1 = (o1, s2) -> Q s2) ->
  forall acc s o s', Q s -> fold_m f l acc s = (o, s') -> Q s'.
Proof.
  intros Hf. induction l as [|x l IH]; intros acc s o s' Hs; simpl.
  - by intros [= _ <-].
  - unfold bind. destruct (f acc x s) as [o1 s1] eqn:Hx.
    pose proof (Hf _ _ _ _ _ Hs Hx) as Hs1.
    destruct o1 as [acc'|e| |]; try by intros [= _ <-].
    by apply IH.
Qed.

Lemma cand_entries_alter v k (d : dict Node) :
  sum_list (map (fun kn => if skipped kn.2 then 0%nat
                           else length (cands kn.2))
                (dict_alter (set_idx v) k d))
  = sum_list (map (fun kn => if skipped kn.2 then 0%nat
                             else length (cands kn.2)) d).
Proof.
  induction d as [|[k' nd] d IH]; simpl; [done|].
  destruct (k' =? k); simpl; [done|]. by rewrite IH.
Qed.

Lemma number_node_entries E r tot k (h : heap (Graph E)) o h' :
  number_node E r tot k h = (o, h') ->
  forall r', cand_entries_at h' r' = cand_entries_at h r'.
Proof.
  unfold number_node. unfold bind at 1, read.
  destruct (h !! r) as [t|] eqn:Hr; [|by intros [= _ <-]].
  unfold bind at 1, lift.
  destruct (dict_get (nodes_dict t) k); [by intros [= _ <-]|].
  unfold bind, write, ret. rewrite Hr. intros [= _ <-] r'.
  unfold cand_entries_at. destruct (decide (r = r')) as [<-|Hne].
  - rewrite list_lookup_insert_eq by (by eapply lookup_lt_Some).
    rewrite Hr. unfold cand_entries. simpl. apply cand_entries_alter.
  - by rewrite list_lookup_insert_ne.
Qed.

Lemma number_nodes_entries E rs (h : heap (Graph E)) o h' :
  number_nodes E rs h = (o, h') ->
  forall r', cand_entries_at h' r' = cand_entries_at h r'.
Proof.
  unfold number_nodes.
  apply (fold_m_state_inv
           (fun h1 => forall r', cand_entries_at h1 r' = cand_entries_at h r'));
    [|done].
  intros tot r s1 o1 s2 Hs1. unfold bind, read.
  destruct (s1 !! r) as [t|]; [|by intros [= _ <-]].
  apply (fold_m_state_inv
           (fun h1 => forall r', cand_entries_at h1 r' = cand_entries_at h r'));
    [|done].
  intros b k s3 o3 s4 Hs3 Hk r'.
  by rewrite (number_node_entries _ _ _ _ _ _ _ Hk).
Qed.

Lemma mols_keep_entries E btg t mols a a' :
  efold (mol_step E btg t) mols a = inr a' ->
  l_cand_batch_idx a' = l_cand_batch_idx a.
Proof.
  apply (efold_inv (fun b => l_cand_batch_idx b = l_cand_batch_idx a));
    [|done].
  intros b x b' Hb [Hx _]%mol_step_counter. congruence.
Qed.

Lemma nodes_add_entries E btg t d :
  forall a a',
    efold (node_step E btg t) d a = inr a' ->
    length (l_cand_batch_idx a')
    = (length (l_cand_batch_idx a)
       + sum_list (map (fun kn => if skipped kn.2 then 0%nat
                                  else length (cands kn.2)) d))%nat.
Proof.
  induction d as [|kn d IH]; intros a a'; simpl.
  - intros [= <-]. lia.
  - destruct (node_step E btg t a kn) as [e|a1] eqn:H1; simpl; [done|].
    intros ->%IH. unfold node_step in H1. cbv zeta in H1.
    destruct (skipped kn.2); [injection H1 as <-; lia|].
    destruct (efold _ _ a) as [e|a2] eqn:H2; simpl in H1; [done|].
    injection H1 as <-. simpl. apply mols_keep_entries in H2.
    rewrite length_app, repeat_length, H2. lia.
Qed.

Lemma trees_add_entries E btg (h : heap (Graph E)) its :
  forall a a' h',
    fold_m (tree_step E btg) its a h = (Ret a', h') ->
    length (l_cand_batch_idx a')
    = (length (l_cand_batch_idx a)
       + sum_list (map (fun it => cand_entries_at h it.2) its))%nat.
Proof.
  induction its as [|it its IH]; intros a a' h'; simpl.
  - intros [= <- _]. lia.
  - intros (a1 & h1 & Hstep & Hrest)%bind_Ret_inv.
    assert (h1 = h) as ->.
    { eapply reads_only_eq; [|exact Hstep]. unfold tree_step.
      apply reads_only_bind; [apply reads_only_read|].
      intros t. apply reads_only_lift. }
    rewrite (IH _ _ _ Hrest). unfold tree_step in Hstep.
    apply bind_Ret_inv in Hstep as (t & s1 & Hread & [Hn _]%lift_Ret_inv).
    unfold read in Hread. unfold cand_entries_at at 2.
    destruct (h !! it.2) as [t'|]; [|done]. injection Hread as -> _.
    apply nodes_add_entries in Hn. simpl in Hn. rewrite Hn.
    unfold cand_entries. lia.
Qed.

(** X15: the candidate index of a training batch is a long tensor of one
    dimension with one entry for each candidate of each node, neither a
    leaf nor single-candidate, of each tree of the batch, a tree counting
    once for every datapoint that holds it. *)
Theorem cand_batch_idx_length E data (h : heap (Graph E)) b h' :
  JTVAECollator_call E true data h = (Ret (Train b), h') ->
  t_dtype (cand_batch_idx b) = int64
  /\ t_shape (cand_batch_idx b) = [length (t_data (cand_batch_idx b))]
  /\ length (t_data (cand_batch_idx b))
     = sum_list (map (fun dp => cand_entries_at h (dp_tree E dp)) data).
Proof.
  simpl.
  intros (cols & gs & btg & bmg & tot & h1 & a & cgs & bcg & sgs & bsg & st
          & Hcols & _ & _ & _ & Htot & Ha & _ & _ & _ & _ & _ & [= ->])%collate_train_inv.
  simpl. destruct (index_tensor_data (l_cand_batch_idx a)) as (-> & -> & ->).
  split_and!; [done..|].
  rewrite (unpack4_trees E data cols Hcols) in *.
  unfold tree_messages in Ha. apply trees_add_entries in Ha. rewrite Ha.
  simpl. rewrite <- (map_map (dp_tree E) (cand_entries_at h)).
  rewrite <- (map_snd_enumerate (map (dp_tree E) data)) at 2.
  rewrite map_map. f_equal. apply map_ext. intros it.
  by apply (number_nodes_entries _ _ _ _ _ Htot).
Qed.

Lemma cand_batch_idx_length_witness :
  exists b h',
    JTVAECollator_call toy true toy_data toy_heap = (Ret (Train b), h')
    /\ length (t_data (cand_batch_idx b)) = 4%nat.
Proof.
  eexists _, _. split; [vm_compute; reflexivity|].
  eapply (cand_batch_idx_length toy toy_data toy_heap).
  vm_compute. reflexivity.
Defined.

Lemma renumber_idxs tot d :
  map (fun kn => idx kn.2) (renumber tot d)
  = map Some (seqZ tot (Z.of_nat (length d))).
Proof.
  revert tot. induction d as [|kn d IH]; intros tot; [done|].
  rewrite renumber_cons. simpl length. rewrite seqZ_cons by lia.
  simpl. f_equal. rewrite IH. do 2 f_equal; lia.
Qed.

Lemma tree_graphs_valid E rs (h : heap (Graph E)) gs h' :
  tree_graphs E rs h = (Ret gs, h') -> Forall (fun r => is_Some (h !! r)) rs.
Proof.
  revert gs h'. induction rs as [|r rs IH]; intros gs h'; simpl;
    [constructor|].
  intros (t & s1 & Hread & H)%bind_Ret_inv.
  pose proof (reads_only_eq _ _ _ _ (reads_only_read _) Hread) as ->.
  apply bind_Ret_inv in H as (gs' & s2 & Hgs & _).
  constructor; [|by eapply IH].
  unfold read in Hread. by destruct (h !! r).
Qed.

Lemma concat_runs {A} (F : A -> list (option Z)) (sz : A -> nat) rs :
  (forall (k : nat) r,
     rs !! k = Some r ->
     F r = map Some (seqZ (Z.of_nat (sum_list (map sz (take k rs))))
                          (Z.of_nat (sz r)))) ->
  concat (map F rs)
  = map Some (seqZ 0 (Z.of_nat (sum_list (map sz rs)))).
Proof.
  induction rs as [|r rs IH] using rev_ind; intros H; [done|].
  rewrite !map_app, concat_app, sum_list_with_app. simpl.
  rewrite app_nil_r, Nat.add_0_r, Nat2Z.inj_add, seqZ_app by lia.
  rewrite map_app. f_equal.
  - apply IH. intros k r' Hk.
    rewrite (H k r') by (by apply lookup_app_l_Some).
    rewrite take_app_le; [done|]. apply lookup_lt_Some in Hk. lia.
  - rewrite (H (length rs) r) by (by rewrite lookup_app_r, Nat.sub_diag).
    by rewrite take_app_length.
Qed.

(** X16: when the datapoints of a training batch hold different trees, the
    numbers ['idx'] that the collation leaves in the nodes, read tree after
    tree in the order of the batch, are 0, 1, 2, ... up to the number of
    nodes of the batch: each node has a number of its own. *)
Theorem batch_numbering_is_a_count E data (h : heap (Graph E)) b h' :
  JTVAECollator_call E true data h = (Ret (Train b), h') ->
  Forall keys_unique h ->
  NoDup (map (dp_tree E) data) ->
  concat (map (tree_idxs h') (map (dp_tree E) data))
  = map Some (seqZ 0 (Z.of_nat
      (sum_list (map (tree_size h) (map (dp_tree E) data))))).
Proof.
  simpl.
  intros (cols & gs & btg & bmg & tot & h1 & a & cgs & bcg & sgs & bsg & st
          & Hcols & Hgs & _ & _ & Htot & _ & _ & _ & _ & _ & Hst & _)%collate_train_inv
         Hu Hnd.
  rewrite (unpack4_trees E data cols Hcols) in *.
  set (rs := map (dp_tree E) data) in *.
  apply tree_graphs_valid in Hgs. unfold number_nodes in Htot.
  destruct (number_trees E _ _ _ _ _ Hu Htot) as (_ & _ & _ & Hpos).
  apply concat_runs. intros k r Hk.
  destruct (Forall_lookup_1 _ _ _ _ Hgs Hk) as [t Ht].
  assert (Hlast : forall k' : nat, (k < k')%nat -> rs !! k' <> Some r).
  { intros k' Hlt Hk'. pose proof (NoDup_lookup _ _ _ _ Hnd Hk Hk'). lia. }
  specialize (Hpos k r t Hk Hlast Ht). rewrite Z.add_0_l in Hpos.
  pose proof (stereo_fold_store E _ _ _ _ _ Hst r) as Hr'.
  rewrite map_snd_enumerate, bool_decide_true in Hr'
    by (by eapply list_elem_of_lookup_2).
  rewrite Hpos in Hr'. simpl in Hr'. rewrite add_smiles3D_with_nodes in Hr'.
  unfold tree_idxs, tree_size. rewrite Hr', Ht. simpl.
  by rewrite renumber_idxs.
Qed.

Lemma batch_numbering_is_a_count_witness :
  exists b h',
    JTVAECollator_call toy true toy_data toy_heap = (Ret (Train b), h')
    /\ concat (map (tree_idxs h') [0; 1]%nat)
       = [Some 0; Some 1; Some 2; Some 3].
Proof.
  eexists _, _. split; [vm_compute; reflexivity|].
  eapply (batch_numbering_is_a_count toy toy_data toy_heap).
  - vm_compute. reflexivity.
  - apply (bool_decide_unpack _). vm_compute. exact I.
  - apply (bool_decide_unpack _). vm_compute. exact I.
Defined.

(** ** What a collation leaves alone *)

Lemma number_node_frame E r tot k (h : heap (Graph E)) o h' :
  number_node E r tot k h = (o, h') ->
  length h' = length h /\ forall r' : nat, r' <> r -> h' !! r' = h !! r'.
Proof.
  unfold number_node. unfold bind at 1, read.
  destruct (h !! r) as [t|] eqn:Hr; [|by intros [= _ <-]].
  unfold bind at 1, lift.
  destruct (dict_get (nodes_dict t) k); [by intros [= _ <-]|].
  unfold bind, write, ret. rewrite Hr. intros [= _ <-].
  split; [apply length_insert|]. intros r' Hr'.
  by apply list_lookup_insert_ne.
Qed.

Lemma fold_m_state_inv_elem {S A B} (Q : S -> Prop) (f : B -> A -> M S B) l :
  (forall b x s1 o1 s2, x ∈ l -> Q s1 -> f b x s1 = (o1, s2) -> Q s2) ->
  forall acc s o s', Q s -> fold_m f l acc s = (o, s') -> Q s'.
Proof.
  induction l as [|x l IH]; intros Hf acc s o s' Hs; simpl.
  - by intros [= _ <-].
  - unfold bind. destruct (f acc x s) as [o1 s1] eqn:Hx.
    assert (Hs1 : Q s1) by (eapply Hf; [left|exact Hs|exact Hx]).
    destruct o1 as [acc'|e| |]; try by intros [= _ <-].
    apply IH; [|done]. intros b y s2 o2 s3 Hy. apply Hf. by right.
Qed.

Lemma number_nodes_frame E rs (h : heap (Graph E)) o h' :
  number_nodes E rs h = (o, h') ->
  length h' = length h
  /\ forall r' : nat, r' ∉ rs -> h' !! r' = h !! r'.
Proof.
  unfold number_nodes.
  apply (fold_m_state_inv_elem
           (fun h1 => length h1 = length h
                      /\ forall r' : nat, r' ∉ rs -> h1 !! r' = h !! r'));
    [|done].
  intros tot r s1 o1 s2 Hin Hs1. unfold bind, read.
  destruct (s1 !! r) as [t|] eqn:Hr; [|by intros [= _ <-]].
  apply (fold_m_state_inv
           (fun h1 => length h1 = length h
                      /\ forall r' : nat, r' ∉ rs -> h1 !! r' = h !! r'));
    [|done].
  intros b k s3 o3 s4 [Hl3 Hf3] [Hl Hf]%number_node_frame.
  split; [congruence|]. intros r' Hr'. rewrite <- Hf3 by done.
  apply Hf. intros ->. done.
Qed.

Lemma stereo_fold_length E its :
  forall st (h : heap (Graph E)) st' h',
    fold_m (stereo_step E) its st h = (Ret st', h') -> length h' = length h.
Proof.
  induction its as [|it its IH]; intros st h st' h'; simpl.
  - by intros [= _ <-].
  - intros (st0 & h0 & (t & Ht & ->)%stereo_step_store & Hrest)%bind_Ret_inv.
    rewrite (IH _ _ _ _ Hrest). apply length_insert.
Qed.

Lemma collation_frame_aux E data (h h' : heap (Graph E)) :
  (exists b, collate_train E data h = (Ret (Train b), h')) ->
  length h' = length h
  /\ forall r : nat, r ∉ map (dp_tree E) data -> h' !! r = h !! r.
Proof.
  intros [b (cols & gs & btg & bmg & tot & h1 & a & cgs & bcg & sgs & bsg & st
          & Hcols & _ & _ & _ & Htot & _ & _ & _ & _ & _ & Hst & _)%collate_train_inv].
  rewrite (unpack4_trees E data cols Hcols) in *.
  apply number_nodes_frame in Htot as [Hl Hf].
  split; [by rewrite (stereo_fold_length _ _ _ _ _ _ Hst)|].
  intros r Hr. rewrite (stereo_fold_store E _ _ _ _ _ Hst r).
  rewrite map_snd_enumerate, bool_decide_false by done. by apply Hf.
Qed.

(** X17: a training-mode collation that returns writes into the trees of
    its batch only: the store keeps its length and every tree that no
    datapoint of the batch holds is as it was. *)
Theorem collation_keeps_other_trees E data (h : heap (Graph E)) b h' :
  JTVAECollator_call E true data h = (Ret (Train b), h') ->
  length h' = length h
  /\ forall r : nat, r ∉ map (dp_tree E) data -> h' !! r = h !! r.
Proof. simpl. intros H. apply collation_frame_aux. by exists b. Qed.

Lemma collation_keeps_other_trees_witness :
  exists b h',
    JTVAECollator_call toy true
      [DP4 (E:=toy) 1%nat (Some 1%nat) (Some [2; 3]%nat) (Some [])] toy_heap
    = (Ret (Train b), h')
    /\ h' !! 0%nat = toy_heap !! 0%nat.
Proof.
  eexists _, _. split; [vm_compute; reflexivity|].
  eapply (collation_keeps_other_trees toy
            [DP4 (E:=toy) 1%nat (Some 1%nat) (Some [2; 3]%nat) (Some [])]
            toy_heap).
  - vm_compute. reflexivity.
  - apply (bool_decide_unpack _). vm_compute. exact I.
Defined.

Lemma last_occurrence {A} `{EqDecision A} (l : list A) x :
  x ∈ l ->
  exists k : nat, l !! k = Some x
                  /\ forall k' : nat, (k < k')%nat -> l !! k' <> Some x.
Proof.
  induction l as [|y l IH] using rev_ind; intros Hx; [by inversion Hx|].
  destruct (decide (y = x)) as [->|Hne].
  - exists (length l). split; [by rewrite lookup_app_r, Nat.sub_diag|].
    intros k' Hk' Hl. apply lookup_lt_Some in Hl.
    rewrite length_app in Hl. simpl in Hl. lia.
  - apply elem_of_app in Hx as [Hx|Hx%list_elem_of_singleton]; [|done].
    destruct (IH Hx) as (k & Hk & Hlast). exists k.
    split; [by apply lookup_app_l_Some|].
    intros k' Hk' Hl. apply lookup_app_Some in Hl as [Hl|[_ Hl]].
    + by apply (Hlast k').
    + destruct (k' - length l)%nat; simpl in Hl; [congruence|done].
Qed.

Lemma add_smiles3D_keys {G} (t : MolTree G) :
  keys_unique (add_smiles3D t) <-> keys_unique t.
Proof.
  unfold keys_unique. by destruct (add_smiles3D_fields t) as (-> & _).
Qed.

Lemma collate_train_store E data (h : heap (Graph E)) out h' :
  collate_train E data h = (Ret out, h') ->
  Forall keys_unique h ->
  Forall keys_unique h'
  /\ (forall r, tree_size h' r = tree_size h r)
  /\ (forall (k : nat) (r : nat) t,
        map (dp_tree E) data !! k = Some r ->
        (forall k' : nat, (k < k')%nat ->
                          map (dp_tree E) data !! k' <> Some r) ->
        h !! r = Some t ->
        h' !! r = Some (with_nodes (add_smiles3D t)
                          (renumber (tot_at h (map (dp_tree E) data) k)
                                    (nodes_dict t))))
  /\ Forall (fun r => is_Some (h !! r)) (map (dp_tree E) data).
Proof.
  intros (cols & gs & btg & bmg & tot & h1 & a & cgs & bcg & sgs & bsg & st
          & Hcols & Hgs & _ & _ & Htot & _ & _ & _ & _ & _ & Hst & _)%collate_train_inv
         Hu.
  rewrite (unpack4_trees E data cols Hcols) in *.
  apply tree_graphs_valid in Hgs. unfold number_nodes in Htot.
  destruct (number_trees E _ _ _ _ _ Hu Htot) as (Hu1 & Hsz & _ & Hpos).
  pose proof (stereo_fold_store E _ _ _ _ _ Hst) as Hst'.
  rewrite map_snd_enumerate in Hst'. split_and!; [| | |done].
  - apply Forall_lookup. intros r t Hr. rewrite Hst' in Hr.
    case_bool_decide.
    + destruct (h1 !! r) as [t1|] eqn:H1; simpl in Hr; [|done].
      injection Hr as <-. apply add_smiles3D_keys.
      by eapply (Forall_lookup_1 _ _ _ _ Hu1).
    + by eapply (Forall_lookup_1 _ _ _ _ Hu1).
  - intros r. rewrite <- Hsz. unfold tree_size. rewrite Hst'.
    case_bool_decide; [|done].
    destruct (h1 !! r) as [t1|]; simpl; [|done].
    by destruct (add_smiles3D_fields t1) as (-> & _).
  - intros k r t Hk Hlast Hr. rewrite Hst'.
    rewrite bool_decide_true by (by eapply list_elem_of_lookup_2).
    rewrite (Hpos k r t Hk Hlast Hr), Z.add_0_l. simpl.
    by rewrite add_smiles3D_with_nodes.
Qed.

(** X18: collating the same batch a second time writes nothing new: the
    store after the second collation is the store after the first.  The
    numbers and the appended 3-D SMILES of the first collation are found
    again by the second. *)
Theorem second_collation_changes_nothing E data (h : heap (Graph E))
    b1 h1 b2 h2 :
  Forall keys_unique h ->
  JTVAECollator_call E true data h = (Ret (Train b1), h1) ->
  JTVAECollator_call E true data h1 = (Ret (Train b2), h2) ->
  h2 = h1.
Proof.
  simpl. intros Hu Hrun1 Hrun2.
  destruct (collation_frame_aux E data h h1) as [Hlen1 Hf1].
  { by exists b1. }
  destruct (collation_frame_aux E data h1 h2) as [Hlen2 Hf2].
  { by exists b2. }
  destruct (collate_train_store _ _ _ _ _ Hrun1 Hu) as (Hu1 & Hsz1 & Hp1 & Hv1).
  destruct (collate_train_store _ _ _ _ _ Hrun2 Hu1) as (_ & _ & Hp2 & _).
  apply list_eq. intros r.
  destruct (decide (r ∈ map (dp_tree E) data)) as [Hin|Hout];
    [|by apply Hf2].
  destruct (last_occurrence _ _ Hin) as (k & Hk & Hlast).
  destruct (Forall_lookup_1 _ _ _ _ Hv1 Hk) as [t Ht].
  pose proof (Hp1 k r t Hk Hlast Ht) as Hr1.
  rewrite (Hp2 k r _ Hk Hlast Hr1), Hr1. f_equal.
  rewrite add_smiles3D_with_nodes, add_smiles3D_idem. simpl.
  rewrite renumber_twice, (tot_at_ext h h1) by done. done.
Qed.

Lemma second_collation_changes_nothing_witness :
  exists b1 h1 b2 h2,
    JTVAECollator_call toy true toy_data toy_heap = (Ret (Train b1), h1)
    /\ JTVAECollator_call toy true toy_data h1 = (Ret (Train b2), h2)
    /\ h2 = h1.
Proof.
  eexists _, _, _, _. split; [vm_compute; reflexivity|].
  split; [vm_compute; reflexivity|].
  eapply (second_collation_changes_nothing toy toy_data toy_heap).
  - apply (bool_decide_unpack _). vm_compute. exact I.
  - vm_compute. reflexivity.
  - vm_compute. reflexivity.
Defined.

(** ** The graph lists of lines 343-346 *)

Lemma unpack4_graph_lists E data cols :
  unpack4 E data = inr cols ->
  map (fun c => c.1.2) cols = map dp_cand_graphs data
  /\ map (fun c => c.2) cols = map dp_stereo_graphs data.
Proof.
  unfold unpack4. destruct data as [|dp0 data0]; [done|].
  generalize (dp0 :: data0) as l. clear. intros l. revert cols.
  induction l as [|dp l IH]; intros cols; simpl.
  - by intros [= <-].
  - destruct dp as [|r g c s]; simpl; [done|].
    destruct (emap _ l) as [e|cols'] eqn:Hl; simpl; [done|].
    intros [= <-]. simpl. destruct (IH cols' eq_refl) as [-> ->]. done.
Qed.

Lemma chain_from_iterable_empty {A} (l : list (option (list A))) :
  Forall (fun o => o = Some []) l -> chain_from_iterable l = inr [].
Proof.
  unfold chain_from_iterable. induction 1 as [|o l -> _ IH]; [done|].
  simpl. destruct (emap _ l) as [e|ls]; simpl in *; [done|].
  by injection IH as ->.
Qed.

(** What lines 348-374 are reached with: when no datapoint of the batch
    carries a candidate graph, or none carries a stereo candidate graph, a
    training-mode collation that returns has called [dgl.batch] on the
    empty list, and the call has returned. *)
Lemma collate_train_batches_empty E data (h : heap (Graph E)) out h' :
  collate_train E data h = (Ret out, h') ->
  Forall (fun dp => dp_cand_graphs dp = Some []) data
  \/ Forall (fun dp => dp_stereo_graphs dp = Some []) data ->
  exists g, dgl_batch E [] = inr g.
Proof.
  intros (cols & gs & btg & bmg & tot & h1 & a & cgs & bcg & sgs & bsg & st
          & Hcols & _ & _ & _ & _ & _ & Hcgs & Hbcg & Hsgs & Hbsg & _)
         %collate_train_inv Hd.
  destruct (unpack4_graph_lists E data cols Hcols) as [Hc Hs].
  rewrite Hc in Hcgs. rewrite Hs in Hsgs.
  destruct Hd as [Hd|Hd].
  - rewrite chain_from_iterable_empty in Hcgs by by apply Forall_fmap.
    injection Hcgs as <-. by exists bcg.
  - rewrite chain_from_iterable_empty in Hsgs by by apply Forall_fmap.
    injection Hsgs as <-. by exists bsg.
Qed.

(** A datapoint that [__getitem__] has built in training mode carries the
    empty list as its stereo candidate graphs: line 229 never appends to
    the list that line 235 returns. *)
Lemma getitem_stereo_graphs_empty E index fuel (w : World E) dp w' :
  cache (self w) = false ->
  training (self w) = true ->
  getitem E index fuel w = (Ret dp, w') ->
  dp_stereo_graphs dp = Some [].
Proof.
  intros Hc Htr. unfold getitem.
  intros (tg & w1 & Htg & H)%bind_Ret_inv.
  assert (Hs : cache_sound (self w)) by (intros ?; congruence).
  destruct (tree_and_graph_spec E index w _ _ Hs Htg) as (_ & Hc1 & Ht1 & _).
  unfold bind at 1, get_self in H. rewrite Ht1, Htr in H. simpl in H.
  apply bind_Ret_inv in H as (cs & w2 & Hcs & [= <- _]).
  simpl. rewrite candidates_eq in Hcs. rewrite Hc1, Hc in Hcs.
  destruct (store w1 !! tg.1) as [tr|]; [|done].
  destruct (cand_loop E tr) as [e|cg]; [done|].
  destruct (stereo_part E tg.1 fuel (store w1)) as [o h2] eqn:Hsp.
  simpl in Hcs. destruct o as [sg|e| |]; try done.
  injection Hcs as <- _. simpl. f_equal.
  revert Hsp. unfold stereo_part. unfold bind at 1, read.
  destruct (store w1 !! tg.1) as [t|]; [|done].
  destruct (_ =? 1); [by intros [= <- _]|].
  intros (? & ? & _ & (? & ? & _ & [= <- _])%bind_Ret_inv)%bind_Ret_inv.
  done.
Qed.

(** C5 (the code departs from it): with a library whose [dgl.batch] refuses
    an empty list of graphs, as DGL's does, a training-mode collation of a
    batch in which no datapoint carries a candidate graph, or in which none
    carries a stereo candidate graph, returns nothing: lines 344 and 346
    batch the empty list before lines 348-374 are reached, so the empty
    tensors of lines 349-350, 356 and 372 are never returned. *)
Theorem empty_graph_lists_stop_the_collation E data (h : heap (Graph E)) e :
  dgl_batch E [] = inl e ->
  Forall (fun dp => dp_cand_graphs dp = Some []) data
  \/ Forall (fun dp => dp_stereo_graphs dp = Some []) data ->
  returned (JTVAECollator_call E true data h).1 = false.
Proof.
  intros He Hd. simpl.
  destruct (collate_train E data h) as [o h'] eqn:Hrun. simpl.
  destruct o as [out|e'| |]; [|done..].
  destruct (collate_train_batches_empty E data h out h' Hrun Hd) as [g Hg].
  congruence.
Qed.

Lemma empty_graph_lists_stop_the_collation_witness :
  (exists a st,
     collected strict strict_data [toy_leaf_tree] a st
     /\ l_source_edges a = [] /\ l_cand_batch_idx a = [] /\ st.1 = [])
  /\ (JTVAECollator_call strict true strict_data [toy_leaf_tree]).1
     = Raise (LibError 7)
  /\ returned (JTVAECollator_call strict true strict_data [toy_leaf_tree]).1
     = false.
Proof.
  split; [|split].
  - eexists _, _. split.
    + eexists _, _, _. split_and!; vm_compute; reflexivity.
    + by split_and!.
  - reflexivity.
  - apply (empty_graph_lists_stop_the_collation strict strict_data
             [toy_leaf_tree] (LibError 7)).
    + reflexivity.
    + left. apply Forall_singleton. reflexivity.
Defined.

(** With such a library no batch of datapoints that a training-mode
    dataset without a cache has built is collated: each of them carries
    the empty list of stereo candidate graphs. *)
Lemma built_datapoints_stop_the_collation E data (h : heap (Graph E)) e :
  dgl_batch E [] = inl e ->
  Forall (fun dp => exists index fuel (w w' : World E),
            cache (self w) = false /\ training (self w) = true
            /\ getitem E index fuel w = (Ret dp, w')) data ->
  returned (JTVAECollator_call E true data h).1 = false.
Proof.
  intros He Hd. simpl.
  destruct (collate_train E data h) as [o h'] eqn:Hrun. simpl.
  destruct o as [out|e'| |]; [|done..].
  destruct (collate_train_batches_empty E data h out h' Hrun) as [g Hg];
    [|congruence].
  right. eapply Forall_impl; [exact Hd|]. simpl.
  intros dp (index & fuel & w & w' & Hc & Htr & Hrun').
  by eapply getitem_stereo_graphs_empty.
Qed.
